(** * safe-portals: typed readers and writers over untyped values

    A shallow embedding of [src/index.ts].  A serializer is a record of two
    closures, [read] and [write], exactly as the [SafeSerializer] interface
    of the source; the combinators are functions from serializers to
    serializers.  Throwing is modelled by the [Outcome] monad: a call
    returns a value, throws the library's [ParseError], or throws the
    run-time's [TypeError].

    Scope of the model.
    - Values are JSON trees extended with [undefined].  An object value
      lists its own properties in the order in which they are enumerated.
    - A property that a value does not own is looked up in the built-in
      prototypes.  The names those define stand for built-in functions,
      which are not values of the model: reading one ends the run with
      the outcome [Unmodelled], and the model says nothing further about
      that run.  Every other outcome is the outcome of the source.
    - Strings are sequences of code units below 256.
    - Numbers are IEEE 754 binary64 values ([spec_float] at precision 53).
    - The three date serializers are not embedded: they rest on
      [Date.parse], whose behaviour is implementation defined. *)

From Stdlib Require Import ZArith List String Ascii Bool Lia Permutation Sorted.
From Stdlib Require Import DecimalString DecimalPos DecimalN.
From Stdlib Require Import SpecFloat.
Import ListNotations.
Local Open Scope string_scope.
Local Open Scope Z_scope.

Set Warnings "-register-all".

(** ** Values *)

Definition number := spec_float.

Inductive JsVal : Type :=
| JUndefined
| JNull
| JBool (b : bool)
| JNum (n : number)
| JStr (s : string)
| JArr (elems : list JsVal)
| JObj (props : list (string * JsVal)).

(** ** Outcomes: normal completion, a thrown exception, or a run that
    leaves the model *)

Inductive Outcome (A : Type) : Type :=
| Ok (a : A)
| ParseError (wanted : string) (got : JsVal)
| TypeError
| Unmodelled.

Arguments Ok {A} a.
Arguments ParseError {A} wanted got.
Arguments TypeError {A}.
Arguments Unmodelled {A}.

Definition bind {A B} (c : Outcome A) (k : A -> Outcome B) : Outcome B :=
  match c with
  | Ok a => k a
  | ParseError w g => ParseError w g
  | TypeError => TypeError
  | Unmodelled => Unmodelled
  end.

Notation "x <- c ;; k" := (bind c (fun x => k))
  (at level 61, c at next level, right associativity).

(** [parseError] of the source: throws [new ParseError(wanted, got)]. *)
Definition parseError {A} (wanted : string) (got : JsVal) : Outcome A :=
  ParseError wanted got.

(** [Array.prototype.map] with a callback that may throw: the elements are
    visited from left to right and the first exception aborts the call. *)
Fixpoint mapM {A B} (f : A -> Outcome B) (l : list A) : Outcome (list B) :=
  match l with
  | [] => Ok []
  | a :: l' => b <- f a ;; bs <- mapM f l' ;; Ok (b :: bs)
  end.

(** ** Numbers *)

Definition NaN : number := S754_nan.

Definition isNaN (n : number) : bool :=
  match n with S754_nan => true | _ => false end.

(** The binary64 value nearest to [p / q] (ties to even), signed. *)
Definition round_ratio (neg : bool) (p q : positive) : number :=
  SFdiv 53 1024 (S754_finite neg p 0) (S754_finite false q 0).

(** The binary64 value nearest to [s * 10 ^ p]. *)
Definition decimal_to_number (neg : bool) (s : Z) (p : Z) : number :=
  match s with
  | Zpos m =>
      if 0 <=? p then round_ratio neg (m * Z.to_pos (10 ^ p)) 1
      else round_ratio neg m (Z.to_pos (10 ^ (- p)))
  | _ => S754_zero neg
  end.

Definition of_Z (z : Z) : number :=
  decimal_to_number (z <? 0) (Z.abs z) 0.

Definition number_eqb (x y : number) : bool :=
  match x, y with
  | S754_zero a, S754_zero b => Bool.eqb a b
  | S754_infinity a, S754_infinity b => Bool.eqb a b
  | S754_nan, S754_nan => true
  | S754_finite a m e, S754_finite b m' e' =>
      Bool.eqb a b && Pos.eqb m m' && Z.eqb e e'
  | _, _ => false
  end.

(** *** Number::toString *)

(** The decimal digits of a natural number. *)
Definition digits_of (s : Z) : string :=
  NilZero.string_of_uint (N.to_uint (Z.to_N s)).

Fixpoint zeros (n : nat) : string :=
  match n with O => "" | S n' => String "0" (zeros n') end.

Fixpoint take (n : nat) (s : string) : string :=
  match n, s with
  | S n', String c r => String c (take n' r)
  | _, _ => ""
  end.

Fixpoint drop (n : nat) (s : string) : string :=
  match n, s with
  | S n', String c r => drop n' r
  | _, _ => s
  end.

(** The exact value of the positive number [m * 2 ^ e] as a fraction. *)
Definition ratio_of (m : positive) (e : Z) : Z * Z :=
  if 0 <=? e then (Zpos m * 2 ^ e, 1) else (Zpos m, 2 ^ (- e)).

(** The [n] with [10 ^ (n - 1) <= p / q < 10 ^ n]. *)
Definition decimal_exponent (p q : Z) : Z :=
  let d := Z.of_nat (String.length (digits_of p))
           - Z.of_nat (String.length (digits_of q)) in
  let ge := if 0 <=? d then q * 10 ^ d <=? p else q <=? p * 10 ^ (- d) in
  if ge then d + 1 else d.

(** The candidates with [k] digits: the two [k]-digit decimals around
    [p / q], each as [(s, n)] standing for [s * 10 ^ (n - k)], and the one
    to prefer (the nearer, the even one on a tie). *)
Definition candidates (p q n0 k : Z) : (Z * Z) * (Z * Z) :=
  let P := if 0 <=? k - n0 then p * 10 ^ (k - n0) else p in
  let Q := if 0 <=? k - n0 then q else q * 10 ^ (n0 - k) in
  let lo := P / Q in
  let hi := lo + 1 in
  let c_lo := (lo, n0) in
  let c_hi := if hi <? 10 ^ k then (hi, n0) else (10 ^ (k - 1), n0 + 1) in
  let dl := P - lo * Q in
  let dh := hi * Q - P in
  if dl <? dh then (c_lo, c_hi)
  else if dh <? dl then (c_hi, c_lo)
  else if Z.even lo then (c_lo, c_hi) else (c_hi, c_lo).

(** The integers [n], [k], [s] of Number::toString: the least [k] for which
    some [s] of [k] digits has [s * 10 ^ (n - k)] round to [x]. *)
Fixpoint shortest (x : number) (p q n0 : Z) (fuel : nat) (k : Z) : Z * Z * Z :=
  let '((s1, n1), (s2, n2)) := candidates p q n0 k in
  match fuel with
  | O => (n1, k, s1)
  | S fuel' =>
      if number_eqb (decimal_to_number false s1 (n1 - k)) x then (n1, k, s1)
      else if number_eqb (decimal_to_number false s2 (n2 - k)) x then (n2, k, s2)
      else shortest x p q n0 fuel' (k + 1)
  end.

Definition format_decimal (n k s : Z) : string :=
  let ds := digits_of s in
  let exponent :=
    (if 0 <=? n - 1 then "e+" else "e-") ++ digits_of (Z.abs (n - 1)) in
  if (k <=? n) && (n <=? 21) then ds ++ zeros (Z.to_nat (n - k))
  else if (0 <? n) && (n <=? 21) then
    take (Z.to_nat n) ds ++ "." ++ drop (Z.to_nat n) ds
  else if (-6 <? n) && (n <=? 0) then "0." ++ zeros (Z.to_nat (- n)) ++ ds
  else if k =? 1 then ds ++ exponent
  else take 1 ds ++ "." ++ drop 1 ds ++ exponent.

Definition Number_toString (x : number) : string :=
  match x with
  | S754_nan => "NaN"
  | S754_zero _ => "0"
  | S754_infinity neg => if neg then "-Infinity" else "Infinity"
  | S754_finite neg m e =>
      let (p, q) := ratio_of m e in
      let '(n, k, s) := shortest (S754_finite false m e) p q (decimal_exponent p q) 16 1 in
      (if neg then "-" else "") ++ format_decimal n k s
  end.

(** ** Own properties *)

Fixpoint lookup {A} (key : string) (props : list (string * A)) : option A :=
  match props with
  | [] => None
  | (k, v) :: rest => if String.eqb k key then Some v else lookup key rest
  end.

Definition has_own {A} (key : string) (props : list (string * A)) : bool :=
  match lookup key props with Some _ => true | None => false end.

(** ** ToString

    An array is joined with commas, [undefined] and [null] elements giving
    the empty string.  An ordinary object answers ["[object Object]"]
    through the inherited method, unless it has an own property named
    [toString]: that property is data, not a function, and the conversion
    throws a [TypeError]. *)
Fixpoint ToString (v : JsVal) : Outcome string :=
  match v with
  | JUndefined => Ok "undefined"
  | JNull => Ok "null"
  | JBool b => Ok (if b then "true" else "false")
  | JNum n => Ok (Number_toString n)
  | JStr s => Ok s
  | JArr elems =>
      let element v :=
        match v with
        | JUndefined | JNull => Ok ""
        | _ => ToString v
        end in
      (fix join (l : list JsVal) : Outcome string :=
         match l with
         | [] => Ok ""
         | [v] => element v
         | v :: l' => s <- element v ;; r <- join l' ;; Ok (s ++ "," ++ r)
         end) elems
  | JObj props =>
      if has_own "toString" props then TypeError else Ok "[object Object]"
  end.

(** ** parseInt and parseFloat *)

(** White space and line terminators below code unit 256. *)
Definition isWhiteSpace (c : ascii) : bool :=
  existsb (N.eqb (N_of_ascii c)) [9; 10; 11; 12; 13; 32; 160]%N.

Fixpoint trimStart (s : string) : string :=
  match s with
  | String c r => if isWhiteSpace c then trimStart r else s
  | EmptyString => s
  end.

Definition strip_sign (s : string) : bool * string :=
  match s with
  | String "-"%char r => (true, r)
  | String "+"%char r => (false, r)
  | _ => (false, s)
  end.

(** The value of a digit in radix 36: [0-9], then [a-z] or [A-Z]. *)
Definition digit_of (c : ascii) : option Z :=
  let n := Z.of_N (N_of_ascii c) in
  if (48 <=? n) && (n <=? 57) then Some (n - 48)
  else if (97 <=? n) && (n <=? 122) then Some (n - 87)
  else if (65 <=? n) && (n <=? 90) then Some (n - 55)
  else None.

Definition radix_digit (R : Z) (c : ascii) : option Z :=
  match digit_of c with
  | Some d => if d <? R then Some d else None
  | None => None
  end.

(** The longest prefix of radix-[R] digits, and what follows it. *)
Fixpoint span_digits (R : Z) (s : string) : list Z * string :=
  match s with
  | String c r =>
      match radix_digit R c with
      | Some d => let (ds, rest) := span_digits R r in (d :: ds, rest)
      | None => ([], s)
      end
  | EmptyString => ([], s)
  end.

Definition digits_value (R : Z) (ds : list Z) : Z :=
  fold_left (fun acc d => acc * R + d) ds 0.

(** [parseInt(o)] with no radix argument: white space is skipped, a sign
    and a [0x] prefix are recognised, and the longest run of digits is
    read; what follows the digits is ignored.  No digit gives [NaN]. *)
Definition parseInt (o : JsVal) : Outcome number :=
  inputString <- ToString o ;;
  let (neg, S) := strip_sign (trimStart inputString) in
  let (R, S) :=
    match S with
    | String "0"%char (String c r) =>
        if Ascii.eqb c "x" || Ascii.eqb c "X" then (16, r) else (10, S)
    | _ => (10, S)
    end in
  match fst (span_digits R S) with
  | [] => Ok NaN
  | ds =>
      let mathInt := digits_value R ds in
      Ok (if mathInt =? 0 then S754_zero neg
          else of_Z (if neg then - mathInt else mathInt))
  end.

Fixpoint starts_with (p s : string) : bool :=
  match p, s with
  | EmptyString, _ => true
  | String a p', String b s' => Ascii.eqb a b && starts_with p' s'
  | _, _ => false
  end.

(** The exponent part [e], [E] followed by an optional sign and digits;
    without digits there is no exponent part. *)
Definition exponent_part (s : string) : Z :=
  match s with
  | String c r =>
      if Ascii.eqb c "e" || Ascii.eqb c "E" then
        let (neg, r') := strip_sign r in
        match fst (span_digits 10 r') with
        | [] => 0
        | ds => if neg then - digits_value 10 ds else digits_value 10 ds
        end
      else 0
  | EmptyString => 0
  end.

(** [parseFloat(o)]: the longest prefix, after white space, that is a
    decimal literal (sign, [Infinity], digits with an optional fraction
    and exponent); none gives [NaN]. *)
Definition parseFloat (o : JsVal) : Outcome number :=
  inputString <- ToString o ;;
  let (neg, S) := strip_sign (trimStart inputString) in
  if starts_with "Infinity" S then Ok (S754_infinity neg)
  else
    let (int, S1) := span_digits 10 S in
    let (frac, S2) :=
      match S1 with
      | String "."%char r => span_digits 10 r
      | _ => ([], S1)
      end in
    match (int ++ frac)%list with
    | [] => Ok NaN
    | mant =>
        Ok (decimal_to_number neg (digits_value 10 mant)
              (exponent_part S2 - Z.of_nat (List.length frac)))
    end.

(** ** Operators of the language used by the source *)

Definition typeof (o : JsVal) : string :=
  match o with
  | JUndefined => "undefined"
  | JBool _ => "boolean"
  | JNum _ => "number"
  | JStr _ => "string"
  | JNull | JArr _ | JObj _ => "object"
  end.

(** [o == null] *)
Definition eq_null (o : JsVal) : bool :=
  match o with JUndefined | JNull => true | _ => false end.

Definition instanceof_Array (o : JsVal) : bool :=
  match o with JArr _ => true | _ => false end.

Definition instanceof_Object (o : JsVal) : bool :=
  match o with JArr _ | JObj _ => true | _ => false end.

(** The element whose index, written in decimal, is [key]. *)
Fixpoint at_key {A} (key : string) (i : Z) (l : list A) : option A :=
  match l with
  | [] => None
  | a :: l' =>
      if String.eqb (digits_of i) key then Some a else at_key key (i + 1) l'
  end.

Definition or_undefined (v : option JsVal) : JsVal :=
  match v with Some v => v | None => JUndefined end.

Definition chars (s : string) : list JsVal :=
  map (fun c => JStr (String c "")) (list_ascii_of_string s).

(** The names the built-in prototypes define (ECMAScript 2024 with its
    annex B). *)
Definition object_prototype_names : list string :=
  ["constructor"; "hasOwnProperty"; "isPrototypeOf"; "propertyIsEnumerable";
   "toLocaleString"; "toString"; "valueOf"; "__proto__";
   "__defineGetter__"; "__defineSetter__"; "__lookupGetter__";
   "__lookupSetter__"].

Definition array_prototype_names : list string :=
  ["at"; "concat"; "copyWithin"; "entries"; "every"; "fill"; "filter";
   "find"; "findIndex"; "findLast"; "findLastIndex"; "flat"; "flatMap";
   "forEach"; "includes"; "indexOf"; "join"; "keys"; "lastIndexOf"; "map";
   "pop"; "push"; "reduce"; "reduceRight"; "reverse"; "shift"; "slice";
   "some"; "sort"; "splice"; "toReversed"; "toSorted"; "toSpliced";
   "unshift"; "values"; "with"].

Definition string_prototype_names : list string :=
  ["at"; "charAt"; "charCodeAt"; "codePointAt"; "concat"; "endsWith";
   "includes"; "indexOf"; "isWellFormed"; "lastIndexOf"; "localeCompare";
   "match"; "matchAll"; "normalize"; "padEnd"; "padStart"; "repeat";
   "replace"; "replaceAll"; "search"; "slice"; "split"; "startsWith";
   "substring"; "toLocaleLowerCase"; "toLocaleUpperCase"; "toLowerCase";
   "toUpperCase"; "toWellFormed"; "trim"; "trimEnd"; "trimStart";
   "substr"; "anchor"; "big"; "blink"; "bold"; "fixed"; "fontcolor";
   "fontsize"; "italics"; "link"; "small"; "strike"; "sub"; "sup";
   "trimLeft"; "trimRight"].

Definition number_prototype_names : list string :=
  ["toExponential"; "toFixed"; "toPrecision"].

Definition is_in (names : list string) (key : string) : bool :=
  existsb (String.eqb key) names.

(** A property that is not an own property: a built-in when a prototype
    defines the name, [undefined] otherwise. *)
Definition inherited (names : list string) (key : string) : Outcome JsVal :=
  if is_in (names ++ object_prototype_names) key then Unmodelled
  else Ok JUndefined.

(** [o[key]] and [o.key]: throws on [undefined] and [null]; an own
    property is found first, then the prototype chain is followed. *)
Definition get (o : JsVal) (key : string) : Outcome JsVal :=
  match o with
  | JUndefined | JNull => TypeError
  | JBool _ => inherited [] key
  | JNum _ => inherited number_prototype_names key
  | JStr s =>
      if String.eqb key "length" then Ok (JNum (of_Z (Z.of_nat (String.length s))))
      else match at_key key 0 (chars s) with
           | Some c => Ok c
           | None => inherited string_prototype_names key
           end
  | JArr elems =>
      if String.eqb key "length" then Ok (JNum (of_Z (Z.of_nat (List.length elems))))
      else match at_key key 0 elems with
           | Some v => Ok v
           | None => inherited array_prototype_names key
           end
  | JObj props =>
      match lookup key props with
      | Some v => Ok v
      | None => inherited [] key
      end
  end.

(** [o[i]] for an integer [i]. *)
Definition get_index (o : JsVal) (i : nat) : Outcome JsVal :=
  match o with
  | JUndefined | JNull => TypeError
  | JBool _ | JNum _ => Ok JUndefined
  | JStr s => Ok (or_undefined (nth_error (chars s) i))
  | JArr elems => Ok (or_undefined (nth_error elems i))
  | JObj props => Ok (or_undefined (lookup (digits_of (Z.of_nat i)) props))
  end.

(** Defining the property [key] of an ordinary object: an existing
    property keeps its place, a new one comes last. *)
Fixpoint set {A} (props : list (string * A)) (key : string) (v : A)
  : list (string * A) :=
  match props with
  | [] => [(key, v)]
  | (k, w) :: rest =>
      if String.eqb k key then (k, v) :: rest else (k, w) :: set rest key v
  end.

(** [out[key] = v] on an ordinary object.  Assigning to [__proto__] calls
    the setter that [Object.prototype] defines, which replaces the
    prototype of [out]; the model does not follow it. *)
Definition assign (out : list (string * JsVal)) (key : string) (v : JsVal)
  : Outcome (list (string * JsVal)) :=
  if String.eqb key "__proto__" then Unmodelled else Ok (set out key v).

(** An array index: the canonical decimal form of an integer from 0 to
    2^32 - 2. *)
Definition array_index (key : string) : option N :=
  match NilZero.uint_of_string key with
  | Some u =>
      let n := N.of_uint u in
      if String.eqb (digits_of (Z.of_N n)) key && (n <=? 4294967294)%N
      then Some n else None
  | None => None
  end.

Definition is_array_index (key : string) : bool :=
  match array_index key with Some _ => true | None => false end.

Definition index_of_key (key : string) : N :=
  match array_index key with Some n => n | None => 0%N end.

(** Insertion of a property among properties sorted by array index. *)
Fixpoint insert_by_index {A} (kv : string * A) (l : list (string * A))
  : list (string * A) :=
  match l with
  | [] => [kv]
  | kv' :: rest =>
      if (index_of_key (fst kv) <=? index_of_key (fst kv'))%N
      then kv :: l else kv' :: insert_by_index kv rest
  end.

(** The order in which the own properties of an ordinary object are
    enumerated: array indices in ascending numeric order, then the other
    names in the order of their creation. *)
Definition enumerate {A} (props : list (string * A)) : list (string * A) :=
  fold_right insert_by_index []
    (filter (fun kv => is_array_index (fst kv)) props)
  ++ filter (fun kv => negb (is_array_index (fst kv))) props.

(** The own properties of the object an object literal creates from the
    given declarations: a name declared twice keeps its first place and
    its last value. *)
Definition declared {A} (decl : list (string * A)) : list (string * A) :=
  enumerate (fold_left (fun props kv => set props (fst kv) (snd kv)) decl []).

Fixpoint indexed {A} (i : Z) (l : list A) : list (string * A) :=
  match l with
  | [] => []
  | a :: l' => (digits_of i, a) :: indexed (i + 1) l'
  end.

(** The properties copied by [{...x}]: the own enumerable ones. *)
Definition spread (x : JsVal) : list (string * JsVal) :=
  match x with
  | JObj props => props
  | JArr elems => indexed 0 elems
  | JStr s => indexed 0 (chars s)
  | _ => []
  end.

(** [l.indexOf(x)] with the equality test [eqb]: the first position, or
    [-1]. *)
Fixpoint indexOf {A B} (eqb : A -> B -> bool) (l : list A) (x : B) : Z :=
  match l with
  | [] => -1
  | a :: l' =>
      if eqb a x then 0
      else let i := indexOf eqb l' x in if i =? -1 then -1 else i + 1
  end.

(** [l[i]], [None] standing for [undefined]. *)
Definition item {A} (l : list A) (i : Z) : option A :=
  if i <? 0 then None else nth_error l (Z.to_nat i).

(** [l.filter((v, i) => p i)], the indices starting at [i]. *)
Fixpoint filter_index {A} (p : nat -> bool) (i : nat) (l : list A) : list A :=
  match l with
  | [] => []
  | a :: l' =>
      if p i then a :: filter_index p (S i) l' else filter_index p (S i) l'
  end.

(** [l.map((d, i) => f d i)] with a callback that may throw. *)
Fixpoint mapMi {A B} (f : A -> nat -> Outcome B) (i : nat) (l : list A)
  : Outcome (list B) :=
  match l with
  | [] => Ok []
  | a :: l' => b <- f a i ;; bs <- mapMi f (S i) l' ;; Ok (b :: bs)
  end.

(** *** JSON.stringify of a string *)

Definition hex_digit (n : N) : ascii :=
  ascii_of_N (if (n <? 10)%N then 48 + n else 87 + n)%N.

Definition quote_char (c : ascii) : string :=
  let n := N_of_ascii c in
  let esc (e : string) := String "\" e in
  if (n =? 34)%N then esc (String c "")
  else if (n =? 92)%N then esc "\"
  else if (n =? 8)%N then esc "b"
  else if (n =? 12)%N then esc "f"
  else if (n =? 10)%N then esc "n"
  else if (n =? 13)%N then esc "r"
  else if (n =? 9)%N then esc "t"
  else if (n <? 32)%N then
    esc ("u00" ++ String (hex_digit (n / 16)) (String (hex_digit (n mod 16)) ""))
  else String c "".

Definition quote (s : string) : string :=
  let q := String (ascii_of_N 34) "" in
  q ++ concat "" (map quote_char (list_ascii_of_string s)) ++ q.

(** ** Serializers *)

Inductive Container : Type :=
| c_tuple | c_none | c_list | c_obj | c_sumtype.

(** [interface SafeSerializer<T> { read: Reader<T>; write: Writer<T>; }]
    with the [container] label of [Type<T>]; [variant] returns an object
    without the label. *)
Record SafeSerializer : Type := {
  container : option Container;
  read : JsVal -> Outcome JsVal;
  write : JsVal -> Outcome JsVal
}.

Definition str : SafeSerializer := {|
  container := Some c_none;
  read := fun o =>
    if String.eqb (typeof o) "string" then Ok o else parseError "string" o;
  write := fun t => Ok t
|}.

Definition nothing : SafeSerializer := {|
  container := Some c_none;
  read := fun o => Ok JUndefined;
  write := fun o => Ok (JStr "")
|}.

Definition int : SafeSerializer := {|
  container := Some c_none;
  read := fun o =>
    i <- parseInt o ;;
    if isNaN i then parseError "integer" o else Ok (JNum i);
  write := fun o => Ok o
|}.

Definition float : SafeSerializer := {|
  container := Some c_none;
  read := fun o =>
    i <- parseFloat o ;;
    if isNaN i then parseError "float" o else Ok (JNum i);
  write := fun o => Ok o
|}.

Definition raw : SafeSerializer := {|
  container := Some c_none;
  read := fun o => Ok o;
  write := fun o => Ok o
|}.

Definition optional (s : SafeSerializer) : SafeSerializer := {|
  container := Some c_none;
  read := fun o => if eq_null o then Ok JUndefined else read s o;
  write := fun t => if eq_null t then Ok JNull else write s t
|}.

Definition nullable (s : SafeSerializer) : SafeSerializer := {|
  container := Some c_none;
  read := fun o => if eq_null o then Ok JNull else read s o;
  write := fun t => if eq_null t then Ok JNull else write s t
|}.

Definition array (s : SafeSerializer) : SafeSerializer := {|
  container := Some c_list;
  read := fun o =>
    match o with
    | JArr elems => l <- mapM (read s) elems ;; Ok (JArr l)
    | _ => parseError "array" o
    end;
  write := fun o =>
    match o with
    | JArr elems => l <- mapM (write s) elems ;; Ok (JArr l)
    | _ => TypeError
    end
|}.

(** A definition object [{ name: serializer, ... }], given by the
    declarations of the literal in the order they are written. *)
Definition Def := list (string * SafeSerializer).

(** [Object.keys(def)]: the own property names in enumeration order. *)
Definition Object_keys {A} (def : list (string * A)) : list string :=
  map fst (declared def).

(** [def[key].read] and [def[key].write] for an own [key]: taking a member
    of [undefined] throws. *)
Definition member (def : Def) (key : string) : Outcome SafeSerializer :=
  match lookup key (declared def) with Some d => Ok d | None => TypeError end.

(** The [for (let key of Object.keys(def))] loop of [obj(def).read], from
    the keys still to visit and the [out] built so far. *)
Fixpoint obj_read_loop (wrap : SafeSerializer -> SafeSerializer)
  (def : Def) (o : JsVal) (keys : list string) (out : list (string * JsVal))
  : Outcome JsVal :=
  match keys with
  | [] => Ok (JObj out)
  | key :: keys' =>
      if instanceof_Object o && negb (instanceof_Array o) then
        d <- member def key ;;
        x <- get o key ;;
        v <- read (wrap d) x ;;
        out' <- assign out key v ;;
        obj_read_loop wrap def o keys' out'
      else parseError "an object" o
  end.

Fixpoint obj_write_loop (wrap : SafeSerializer -> SafeSerializer)
  (def : Def) (r : JsVal) (keys : list string) (out : list (string * JsVal))
  : Outcome JsVal :=
  match keys with
  | [] => Ok (JObj out)
  | key :: keys' =>
      d <- member def key ;;
      x <- get r key ;;
      v <- write (wrap d) x ;;
      out' <- assign out key v ;;
      obj_write_loop wrap def r keys' out'
  end.

Definition obj (def : Def) : SafeSerializer := {|
  container := Some c_obj;
  read := fun o => obj_read_loop (fun d => d) def o (Object_keys def) [];
  write := fun r => obj_write_loop (fun d => d) def r (Object_keys def) []
|}.

(** Like [obj], but all properties are optional. *)
Definition partial_obj (def : Def) : SafeSerializer := {|
  container := Some c_obj;
  read := fun o => obj_read_loop optional def o (Object_keys def) [];
  write := fun r => obj_write_loop optional def r (Object_keys def) []
|}.

Definition tuple (def : list SafeSerializer) : SafeSerializer := {|
  container := Some c_tuple;
  read := fun o =>
    if instanceof_Array o then
      l <- mapMi (fun d i => x <- get_index o i ;; read d x) 0 def ;;
      Ok (JArr l)
    else parseError "an array" o;
  write := fun r =>
    l <- mapMi (fun d i => x <- get_index r i ;; write d x) 0 def ;;
    Ok (JArr l)
|}.

(** [o === key] for a string [key]. *)
Definition strict_eq_string (key : string) (o : JsVal) : bool :=
  match o with JStr s => String.eqb key s | _ => false end.

Definition oneOf (def : list (string * JsVal)) : SafeSerializer := {|
  container := Some c_sumtype;
  read := fun o =>
    if negb (indexOf strict_eq_string (Object_keys def) o =? -1) then Ok o
    else parseError ("one of " ++ concat "," (Object_keys def)) o;
  write := fun t => Ok t
|}.

(** An argument of [variant(...args)]: a tag or a serializer. *)
Inductive Arg : Type :=
| Tag (t : string)
| Ser (s : SafeSerializer).

(** [a === v]: a tag is compared as a string; a serializer is an object
    of its own and equals no untyped value. *)
Definition strict_eq_arg (a : Arg) (v : JsVal) : bool :=
  match a with
  | Tag t => strict_eq_string t v
  | Ser _ => false
  end.

(** [a.read(o)] and [a.write(t)] for [a = variantSerializers[i]]: a
    missing element or a string has no such method. *)
Definition call (method : SafeSerializer -> JsVal -> Outcome JsVal)
  (a : option Arg) (x : JsVal) : Outcome JsVal :=
  match a with
  | Some (Ser s) => method s x
  | _ => TypeError
  end.

Definition Container_name (c : Container) : string :=
  match c with
  | c_tuple => "tuple"
  | c_none => "none"
  | c_list => "list"
  | c_obj => "obj"
  | c_sumtype => "sumtype"
  end.

(** [JSON.stringify] of the array of the arguments at even positions: a
    tag is quoted, a serializer shows its only non-function property. *)
Definition JSON_stringify_arg (a : Arg) : string :=
  match a with
  | Tag t => quote t
  | Ser s =>
      match container s with
      | Some c => "{" ++ quote "container" ++ ":" ++ quote (Container_name c) ++ "}"
      | None => "{}"
      end
  end.

Definition JSON_stringify (l : list Arg) : string :=
  "[" ++ concat "," (map JSON_stringify_arg l) ++ "]".

Definition variant (args : list Arg) : SafeSerializer :=
  let variantTypes := filter_index Nat.even 0 args in
  let variantSerializers := filter_index Nat.odd 0 args in
  {|
    container := None;
    read := fun o =>
      type <- get o "type" ;;
      let i := indexOf strict_eq_arg variantTypes type in
      if i =? -1 then
        parseError ("type in " ++ JSON_stringify variantTypes) o
      else
        r <- call read (item variantSerializers i) o ;;
        Ok (JObj (set (spread r) "type" type));
    write := fun t =>
      type <- get t "type" ;;
      let i := indexOf strict_eq_arg variantTypes type in
      w <- call write (item variantSerializers i) t ;;
      Ok (JObj (set (spread w) "type" type))
  |}.

(** The well-typed calls [variant(tag0, schema0, tag1, schema1, ...)]. *)
Fixpoint tagged (alts : list (string * SafeSerializer)) : list Arg :=
  match alts with
  | [] => []
  | (t, s) :: rest => Tag t :: Ser s :: tagged rest
  end.

(** The serializer [bool] of the source; from here on the type of truth
    values is written [Datatypes.bool]. *)
Definition bool : SafeSerializer := {|
  container := Some c_none;
  read := fun o =>
    if String.eqb (typeof o) "boolean" then Ok o else parseError "boolean" o;
  write := fun o => Ok o
|}.

(** ** Reference functions used to state the properties *)

(** The first [n] positions of an array: its elements, then [undefined]
    where the array has ended. *)
Fixpoint positions (n : nat) (elems : list JsVal) : list JsVal :=
  match n with
  | O => []
  | S n' =>
      match elems with
      | [] => JUndefined :: positions n' []
      | e :: rest => e :: positions n' rest
      end
  end.

(** [o[key]] on an ordinary object with the own properties [props]. *)
Definition field (props : list (string * JsVal)) (key : string) : JsVal :=
  or_undefined (lookup key props).

(** A decimal digit, ["0"] to ["9"]. *)
Definition is_decimal_digit (c : ascii) : Datatypes.bool :=
  let n := N_of_ascii c in ((48 <=? n) && (n <=? 57))%N.

(** Whether the first character of [s] satisfies [p]. *)
Definition first_char (p : ascii -> Datatypes.bool) (s : string) : Datatypes.bool :=
  match s with
  | String c _ => p c
  | EmptyString => false
  end.

(** The digits of a decimal numeral, most significant first. *)
Fixpoint uint_digits (u : Decimal.uint) : list Z :=
  match u with
  | Decimal.Nil => []
  | Decimal.D0 u => 0 :: uint_digits u
  | Decimal.D1 u => 1 :: uint_digits u
  | Decimal.D2 u => 2 :: uint_digits u
  | Decimal.D3 u => 3 :: uint_digits u
  | Decimal.D4 u => 4 :: uint_digits u
  | Decimal.D5 u => 5 :: uint_digits u
  | Decimal.D6 u => 6 :: uint_digits u
  | Decimal.D7 u => 7 :: uint_digits u
  | Decimal.D8 u => 8 :: uint_digits u
  | Decimal.D9 u => 9 :: uint_digits u
  end.

(** ** Schemas built from the combinators

    The terms built from the constants and combinators of the source (the
    date serializers aside), and the serializer each one stands for. *)
Inductive Schema : Type :=
| s_str
| s_bool
| s_int
| s_float
| s_raw
| s_nothing
| s_oneOf (def : list (string * JsVal))
| s_optional (s : Schema)
| s_nullable (s : Schema)
| s_array (s : Schema)
| s_obj (def : list (string * Schema))
| s_partial_obj (def : list (string * Schema))
| s_tuple (def : list Schema)
| s_variant (alts : list (string * Schema)).

Definition on_snd {A B} (f : A -> B) (kd : string * A) : string * B :=
  let (k, d) := kd in (k, f d).

Fixpoint serializer (S : Schema) : SafeSerializer :=
  match S with
  | s_str => str
  | s_bool => bool
  | s_int => int
  | s_float => float
  | s_raw => raw
  | s_nothing => nothing
  | s_oneOf def => oneOf def
  | s_optional s => optional (serializer s)
  | s_nullable s => nullable (serializer s)
  | s_array s => array (serializer s)
  | s_obj def => obj (map (on_snd serializer) def)
  | s_partial_obj def => partial_obj (map (on_snd serializer) def)
  | s_tuple def => tuple (map serializer def)
  | s_variant alts => variant (tagged (map (on_snd serializer) alts))
  end.

(** The schemas of container kind [obj], the only ones the signatures of
    [variant] accept as alternatives. *)
Definition is_obj (S : Schema) : Datatypes.bool :=
  match S with
  | s_obj _ | s_partial_obj _ => true
  | _ => false
  end.

(** Whether a schema can read [undefined] from an input that is neither
    [null] nor [undefined]: [nothing], possibly under wrappers. *)
Fixpoint reads_undefined (S : Schema) : Datatypes.bool :=
  match S with
  | s_nothing => true
  | s_optional s | s_nullable s => reads_undefined s
  | _ => false
  end.

Fixpoint distinct (keys : list string) : Datatypes.bool :=
  match keys with
  | [] => true
  | k :: rest => negb (existsb (String.eqb k) rest) && distinct rest
  end.

(** The schemas for which the round trip is stated: definition objects
    declare distinct names, none of them [__proto__]; the alternatives of
    a variant are object schemas (as its signatures demand); and
    [nullable] is not applied to a schema that can read [undefined]. *)
Fixpoint well_formed (S : Schema) : Datatypes.bool :=
  match S with
  | s_optional s | s_array s => well_formed s
  | s_nullable s => negb (reads_undefined s) && well_formed s
  | s_obj def | s_partial_obj def =>
      distinct (map fst def) && negb (is_in (map fst def) "__proto__")
      && forallb (fun kd => well_formed (snd kd)) def
  | s_tuple def => forallb well_formed def
  | s_variant alts =>
      forallb (fun ts => is_obj (snd ts) && well_formed (snd ts)) alts
  | _ => true
  end.

(** [t[key]] for a value that was read, [undefined] where there is no such
    property. *)
Definition field_of (t : JsVal) (key : string) : JsVal :=
  match t with
  | JObj props => field props key
  | _ => JUndefined
  end.

(** [rereads S t]: every number inside [t] that [S] reads with [int] or
    [float] is read back as itself by that serializer. *)
Fixpoint rereads (S : Schema) (t : JsVal) : Prop :=
  match S with
  | s_int => read int t = Ok t
  | s_float => read float t = Ok t
  | s_optional s | s_nullable s => eq_null t = true \/ rereads s t
  | s_array s =>
      match t with
      | JArr ts => Forall (rereads s) ts
      | _ => True
      end
  | s_obj def =>
      (fix fields (def : list (string * Schema)) : Prop :=
         match def with
         | [] => True
         | (k, d) :: rest => rereads d (field_of t k) /\ fields rest
         end) def
  | s_partial_obj def =>
      (fix fields (def : list (string * Schema)) : Prop :=
         match def with
         | [] => True
         | (k, d) :: rest =>
             (eq_null (field_of t k) = true \/ rereads d (field_of t k)) /\
             fields rest
         end) def
  | s_tuple def =>
      match t with
      | JArr ts =>
          (fix positions (def : list Schema) (ts : list JsVal) : Prop :=
             match def, ts with
             | d :: def', t :: ts' => rereads d t /\ positions def' ts'
             | _, _ => True
             end) def ts
      | _ => True
      end
  | s_variant alts =>
      (fix alternatives (alts : list (string * Schema)) : Prop :=
         match alts with
         | [] => True
         | (tag, d) :: rest =>
             if strict_eq_string tag (field_of t "type") then rereads d t
             else alternatives rest
         end) alts
  | _ => True
  end.

(** The character that delimits a JSON string. *)
Definition double_quote : string := String (ascii_of_N 34) "".

(** *** The shape of numeric text *)

(** White space below code unit 256: tab, line feed, vertical tab, form
    feed, carriage return, space, no-break space. *)
Definition white_space : list ascii :=
  ["009"; "010"; "011"; "012"; "013"; " "; "160"]%char.

Definition is_white (s : string) : Datatypes.bool :=
  forallb (fun c => existsb (Ascii.eqb c) white_space) (list_ascii_of_string s).

Definition is_sign (c : ascii) : Datatypes.bool :=
  (Ascii.eqb c "+" || Ascii.eqb c "-")%bool.

(** An optional sign: none, [+] or [-]. *)
Definition sign_text (sg : option Datatypes.bool) : string :=
  match sg with
  | None => ""
  | Some false => "+"
  | Some true => "-"
  end.

Definition is_minus (sg : option Datatypes.bool) : Datatypes.bool :=
  match sg with Some true => true | _ => false end.

(** An optional fraction: a point and digits, possibly none. *)
Definition fraction_text (fr : option Decimal.uint) : string :=
  match fr with
  | None => ""
  | Some uf => "." ++ NilEmpty.string_of_uint uf
  end.

Definition fraction_length (fr : option Decimal.uint) : Z :=
  match fr with
  | None => 0
  | Some uf => Z.of_nat (Decimal.nb_digits uf)
  end.

Definition fraction_value (fr : option Decimal.uint) : Z :=
  match fr with
  | None => 0
  | Some uf => Z.of_N (N.of_uint uf)
  end.

(** An optional exponent: [e] or [E], an optional sign, digits. *)
Definition exponent_text
  (ex : option (Datatypes.bool * option Datatypes.bool * Decimal.uint)) : string :=
  match ex with
  | None => ""
  | Some (upper, sg, ue) =>
      (if upper then "E" else "e") ++ sign_text sg ++ NilEmpty.string_of_uint ue
  end.

Definition exponent_value
  (ex : option (Datatypes.bool * option Datatypes.bool * Decimal.uint)) : Z :=
  match ex with
  | None => 0
  | Some (_, sg, ue) =>
      if is_minus sg then - Z.of_N (N.of_uint ue) else Z.of_N (N.of_uint ue)
  end.

Definition exponent_digits
  (ex : option (Datatypes.bool * option Datatypes.bool * Decimal.uint)) : Decimal.uint :=
  match ex with
  | None => Decimal.D0 Decimal.Nil
  | Some (_, _, ue) => ue
  end.

(** Whether [s] starts with an exponent: [e] or [E], an optional sign and
    a digit. *)
Definition starts_exponent (s : string) : Datatypes.bool :=
  match s with
  | String c r =>
      ((Ascii.eqb c "e" || Ascii.eqb c "E") &&
       (first_char is_decimal_digit r ||
        (first_char is_sign r && first_char is_decimal_digit (drop 1 r))))%bool
  | EmptyString => false
  end.

(** Whether [s] starts with a point and a digit. *)
Definition starts_fraction (s : string) : Datatypes.bool :=
  match s with
  | String c r => (Ascii.eqb c "." && first_char is_decimal_digit r)%bool
  | EmptyString => false
  end.

(** *** What the round trip rests on

    For a serializer [s] and a condition [P] on the values it reads. *)

(** What [s] reads is written by [s], and read back as itself when [P]
    holds of it. *)
Definition RoundTrips (s : SafeSerializer) (P : JsVal -> Prop) : Prop :=
  forall v t, read s v = Ok t ->
    exists v2, write s t = Ok v2 /\ (P t -> read s v2 = Ok t).

(** [s] reads [null] from [null] and [undefined] only. *)
Definition NullFromNull (s : SafeSerializer) : Prop :=
  forall v, read s v = Ok JNull -> eq_null v = true.

(** [s] reads [undefined] from [null] and [undefined] only. *)
Definition UndefinedFromNull (s : SafeSerializer) : Prop :=
  forall v, read s v = Ok JUndefined -> eq_null v = true.

(** [s] writes [null] or [undefined] for [null] and [undefined] only. *)
Definition WritesValues (s : SafeSerializer) : Prop :=
  forall t v2, write s t = Ok v2 -> eq_null t = false -> eq_null v2 = false.

(** [s] can write whatever it can read. *)
Definition WritesInputs (s : SafeSerializer) : Prop :=
  forall v t, read s v = Ok t -> exists w, write s v = Ok w.

Definition Good (s : SafeSerializer) (P : JsVal -> Prop) : Prop :=
  RoundTrips s P /\ NullFromNull s /\ WritesValues s /\ WritesInputs s.

(** The round trip of an object serializer under a variant: the object it
    read, with [type] set to the input's [type], is written, and what is
    written, with [type] set again, is read back as the object first
    read. *)
Definition RoundTripsUnderType (s : SafeSerializer) (P : JsVal -> Prop) : Prop :=
  forall props type l,
    lookup "type" props = Some type ->
    read s (JObj props) = Ok (JObj l) ->
    exists lw,
      write s (JObj (set l "type" type)) = Ok (JObj lw) /\
      (P (JObj (set l "type" type)) ->
       read s (JObj (set lw "type" type)) = Ok (JObj l)).

(** The schemas in which neither [int] nor [float] occurs. *)
Fixpoint number_free (S : Schema) : Datatypes.bool :=
  match S with
  | s_int | s_float => false
  | s_optional s | s_nullable s | s_array s => number_free s
  | s_obj def | s_partial_obj def =>
      forallb (fun kd => number_free (snd kd)) def
  | s_tuple def => forallb number_free def
  | s_variant alts => forallb (fun ts => number_free (snd ts)) alts
  | _ => true
  end.

(*DEFS-END*)
(* ================================================================== *)
(** * Properties *)

(** ** Scalars *)

(** C8. [str.read] returns a string input unchanged and fails, expecting a
    "string", on every other input (a number, a boolean, [null],
    [undefined], an array, an object); [bool.read] returns a boolean
    input unchanged and fails on every other input, in particular on the
    string ["true"]. *)
Theorem scalar_rejection :
  (forall o,
     read str o =
       match o with JStr _ => Ok o | _ => ParseError "string" o end) /\
  (forall o,
     read bool o =
       match o with JBool _ => Ok o | _ => ParseError "boolean" o end) /\
  read str (JNum (of_Z 42)) = ParseError "string" (JNum (of_Z 42)) /\
  read str (JBool true) = ParseError "string" (JBool true) /\
  read str JNull = ParseError "string" JNull /\
  read str (JArr []) = ParseError "string" (JArr []) /\
  read bool (JStr "true") = ParseError "boolean" (JStr "true").
Proof.
  repeat split; try reflexivity; intros o; destruct o; reflexivity.
Qed.

(** ** Optional and nullable *)

(** C7. For every serializer [s]: on a nullish input ([null] or
    [undefined], not told apart) [optional s] reads [undefined] and
    [nullable s] reads [null], and both write [null]; on every other
    value both delegate to [s], for reading and for writing. *)
Theorem absence_collapse (s : SafeSerializer) (o : JsVal) :
  (o = JNull \/ o = JUndefined ->
     read (optional s) o = Ok JUndefined /\
     read (nullable s) o = Ok JNull /\
     write (optional s) o = Ok JNull /\
     write (nullable s) o = Ok JNull) /\
  (o <> JNull -> o <> JUndefined ->
     read (optional s) o = read s o /\
     read (nullable s) o = read s o /\
     write (optional s) o = write s o /\
     write (nullable s) o = write s o).
Proof.
  split.
  - intros [-> | ->]; repeat split; reflexivity.
  - intros Hn Hu; destruct o; try congruence; repeat split; reflexivity.
Qed.

Lemma absence_collapse_witness :
  (read (optional str) JNull = Ok JUndefined /\
   read (nullable str) JNull = Ok JNull /\
   write (optional str) JNull = Ok JNull /\
   write (nullable str) JNull = Ok JNull) /\
  (read (optional str) (JStr "x") = read str (JStr "x") /\
   read (nullable str) (JStr "x") = read str (JStr "x") /\
   write (optional str) (JStr "x") = write str (JStr "x") /\
   write (nullable str) (JStr "x") = write str (JStr "x")).
Proof.
  split.
  - apply (proj1 (absence_collapse str JNull)). left; reflexivity.
  - apply (proj2 (absence_collapse str (JStr "x"))); discriminate.
Defined.

(** ** Objects *)

(** C9. With no declared field, [obj({})] and [partial_obj({})] read the
    empty record from every input: the loop that holds the "an object"
    check runs zero times. *)
Theorem empty_def_accepts_everything (o : JsVal) :
  read (obj []) o = Ok (JObj []) /\ read (partial_obj []) o = Ok (JObj []).
Proof.
  split; reflexivity.
Qed.

(** ** Tuples *)

Lemma bind_Ok {A B} (c : Outcome A) (k : A -> Outcome B) (b : B) :
  bind c k = Ok b -> exists a, c = Ok a /\ k a = Ok b.
Proof.
  destruct c; simpl; intros H; try discriminate; eauto.
Qed.

Lemma mapM_length {A B} (f : A -> Outcome B) (l : list A) (l' : list B) :
  mapM f l = Ok l' -> List.length l' = List.length l.
Proof.
  revert l'; induction l as [|a l IH]; simpl; intros l' H.
  - injection H as <-; reflexivity.
  - apply bind_Ok in H as (b & _ & H).
    apply bind_Ok in H as (bs & Hbs & H).
    injection H as <-; simpl; f_equal; auto.
Qed.

Lemma mapMi_length {A B} (f : A -> nat -> Outcome B) (l : list A) :
  forall i l', mapMi f i l = Ok l' -> List.length l' = List.length l.
Proof.
  induction l as [|a l IH]; simpl; intros i l' H.
  - injection H as <-; reflexivity.
  - apply bind_Ok in H as (b & _ & H).
    apply bind_Ok in H as (bs & Hbs & H).
    injection H as <-; simpl; f_equal; eauto.
Qed.

Lemma mapMi_ext {A B} (f g : A -> nat -> Outcome B) (l : list A) :
  forall i, (forall a j, f a (i + j)%nat = g a j) ->
  mapMi f i l = mapMi g 0 l.
Proof.
  assert (G : forall i k, (forall a j, f a (i + j)%nat = g a (k + j)%nat) ->
                          mapMi f i l = mapMi g k l).
  { induction l as [|a l IH]; simpl; intros i k H; [reflexivity|].
    rewrite <- (Nat.add_0_r i) at 1. rewrite <- (Nat.add_0_r k) at 1.
    rewrite H. rewrite (IH (S i) (S k)); [reflexivity|].
    intros b j. rewrite !Nat.add_succ_l, <- !Nat.add_succ_r. apply H. }
  intros i H. apply G. exact H.
Qed.

(** Over an array, [def.map((d, i) => m(d, o[i]))] visits the declared
    positions in order. *)
Lemma mapMi_positions (m : SafeSerializer -> JsVal -> Outcome JsVal)
  (def : list SafeSerializer) :
  forall elems,
    mapMi (fun d i => x <- get_index (JArr elems) i ;; m d x) 0 def =
    mapM (fun p => m (fst p) (snd p))
         (combine def (positions (List.length def) elems)).
Proof.
  induction def as [|d def IH]; intros elems; [reflexivity|].
  simpl mapMi. destruct elems as [|e elems]; simpl.
  - destruct (m d JUndefined); simpl; try reflexivity.
    rewrite <- IH.
    rewrite (mapMi_ext _ (fun d i => x <- get_index (JArr []) i ;; m d x));
      [reflexivity|].
    intros b j; simpl. destruct j; reflexivity.
  - destruct (m d e); simpl; try reflexivity.
    rewrite <- IH.
    rewrite (mapMi_ext _ (fun d i => x <- get_index (JArr elems) i ;; m d x));
      [reflexivity|].
    intros b j; reflexivity.
Qed.

Lemma mapM_In {A B} (f : A -> Outcome B) (l : list A) :
  (forall a, In a l -> exists b, f a = Ok b) -> exists l', mapM f l = Ok l'.
Proof.
  induction l as [|a l IH]; simpl; intros H; [eauto|].
  destruct (H a) as (b & ->); [auto|]. simpl.
  destruct IH as (l' & ->); [auto|]. simpl. eauto.
Qed.

(** C6. [tuple(S0, ..., Sn).read] fails, expecting "an array", on every
    input that is not an array; on an array it reads position [i] with
    [Si.read(input[i])] for the declared positions only, in order: input
    positions beyond the arity are not looked at and a position the input
    lacks is read from [undefined].  [tuple(...).write] of an array
    writes position [i] with [Si.write(value[i])]; it returns as soon as
    each of these returns, and what it returns is an array of exactly the
    declared arity. *)
Theorem tuple_arity (def : list SafeSerializer) :
  (forall o, instanceof_Array o = false ->
     read (tuple def) o = ParseError "an array" o) /\
  (forall elems,
     read (tuple def) (JArr elems) =
       (l <- mapM (fun p => read (fst p) (snd p))
                  (combine def (positions (List.length def) elems)) ;;
        Ok (JArr l))) /\
  (forall elems extra,
     (List.length def <= List.length elems)%nat ->
     read (tuple def) (JArr (elems ++ extra)) = read (tuple def) (JArr elems)) /\
  (forall elems,
     write (tuple def) (JArr elems) =
       (l <- mapM (fun p => write (fst p) (snd p))
                  (combine def (positions (List.length def) elems)) ;;
        Ok (JArr l))) /\
  (forall r v, write (tuple def) r = Ok v ->
     exists l, v = JArr l /\ List.length l = List.length def) /\
  (forall elems,
     (forall d x, In (d, x) (combine def (positions (List.length def) elems)) ->
                  exists w, write d x = Ok w) ->
     exists l, write (tuple def) (JArr elems) = Ok (JArr l) /\
               List.length l = List.length def).
Proof.
  assert (Hw : forall elems,
     write (tuple def) (JArr elems) =
       (l <- mapM (fun p => write (fst p) (snd p))
                  (combine def (positions (List.length def) elems)) ;;
        Ok (JArr l))).
  { intros elems. unfold tuple; cbn [write].
    now rewrite (mapMi_positions write). }
  assert (Hr : forall elems,
     read (tuple def) (JArr elems) =
       (l <- mapM (fun p => read (fst p) (snd p))
                  (combine def (positions (List.length def) elems)) ;;
        Ok (JArr l))).
  { intros elems. unfold tuple; cbn [read instanceof_Array].
    now rewrite (mapMi_positions read). }
  assert (Hl : forall r v, write (tuple def) r = Ok v ->
     exists l, v = JArr l /\ List.length l = List.length def).
  { intros r v H. unfold tuple in H; simpl in H.
    apply bind_Ok in H as (l & Hl & H). injection H as <-.
    exists l; split; [reflexivity|]. eapply mapMi_length; eauto. }
  repeat split; auto.
  - intros o Ho. unfold tuple; simpl. now rewrite Ho.
  - intros elems extra Hlen. rewrite !Hr. do 3 f_equal.
    clear - Hlen. revert elems Hlen.
    induction (List.length def) as [|n IH]; intros elems Hlen; [reflexivity|].
    destruct elems as [|e elems]; simpl in *; [lia|].
    f_equal. apply IH. lia.
  - intros elems H.
    destruct (mapM_In (fun p => write (fst p) (snd p))
                (combine def (positions (List.length def) elems))) as (l & Hm).
    { intros [d x] Hin. apply (H d x Hin). }
    exists l. split.
    + rewrite Hw, Hm. reflexivity.
    + apply mapM_length in Hm. rewrite Hm, length_combine.
      assert (G : forall n es, List.length (positions n es) = n).
      { induction n as [|n IH]; intros [|e es]; simpl; auto. }
      rewrite G. apply Nat.min_id.
Qed.

Lemma tuple_arity_witness :
  read (tuple [str; int]) (JStr "x") = ParseError "an array" (JStr "x") /\
  read (tuple [str; int]) (JArr ([JStr "x"; JNum (of_Z 5)] ++ [JStr "extra"])) =
    read (tuple [str; int]) (JArr [JStr "x"; JNum (of_Z 5)]) /\
  exists l, write (tuple [str; int]) (JArr [JStr "x"; JNum (of_Z 5)]) = Ok (JArr l) /\
            List.length l = 2%nat.
Proof.
  destruct (tuple_arity [str; int]) as (H1 & _ & H3 & _ & _ & H6).
  split; [apply H1; reflexivity|].
  split; [apply H3; simpl; lia|].
  apply H6. simpl.
  intros d x [E | [E | []]]; injection E as <- <-; eexists; reflexivity.
Defined.

(** ** Objects, field by field *)

Lemma lookup_set_same {A} (props : list (string * A)) key v :
  lookup key (set props key v) = Some v.
Proof.
  induction props as [|[k w] props IH]; simpl.
  - now rewrite String.eqb_refl.
  - destruct (String.eqb k key) eqn:E; simpl; rewrite E; auto.
Qed.

Lemma lookup_set_other {A} (props : list (string * A)) key key' v :
  key' <> key -> lookup key' (set props key v) = lookup key' props.
Proof.
  intros Hne. induction props as [|[k w] props IH]; simpl.
  - destruct (String.eqb key key') eqn:E; [|reflexivity].
    apply String.eqb_eq in E; congruence.
  - destruct (String.eqb k key) eqn:E; simpl.
    + apply String.eqb_eq in E; subst k.
      destruct (String.eqb key key') eqn:E'; [|reflexivity].
      apply String.eqb_eq in E'; congruence.
    + now rewrite IH.
Qed.

Lemma set_fresh {A} (props : list (string * A)) key v :
  ~ In key (map fst props) -> set props key v = (props ++ [(key, v)])%list.
Proof.
  induction props as [|[k w] props IH]; simpl; intros Hn; [reflexivity|].
  destruct (String.eqb k key) eqn:E.
  - apply String.eqb_eq in E; tauto.
  - rewrite IH; tauto.
Qed.

Lemma set_keys_present {A} (props : list (string * A)) key v :
  In key (map fst props) -> map fst (set props key v) = map fst props.
Proof.
  induction props as [|[k w] props IH]; simpl; intros Hin; [tauto|].
  destruct (String.eqb k key) eqn:E; simpl; [reflexivity|].
  f_equal. apply IH. destruct Hin as [-> | Hin]; [|exact Hin].
  now rewrite String.eqb_refl in E.
Qed.

Lemma lookup_In {A} (def : list (string * A)) k d :
  NoDup (map fst def) -> In (k, d) def -> lookup k def = Some d.
Proof.
  induction def as [|[k' d'] def IH]; simpl; intros Hnd Hin; [tauto|].
  inversion Hnd as [|? ? Hnot Hnd']; subst.
  destruct Hin as [E | Hin].
  - injection E as -> ->. now rewrite String.eqb_refl.
  - destruct (String.eqb k' k) eqn:E; [|auto].
    apply String.eqb_eq in E; subst k'.
    exfalso; apply Hnot. apply (in_map fst) in Hin; exact Hin.
Qed.

Lemma lookup_None {A} (props : list (string * A)) k :
  ~ In k (map fst props) <-> lookup k props = None.
Proof.
  induction props as [|[k' v] props IH]; simpl; [tauto|].
  destruct (String.eqb k' k) eqn:E.
  - apply String.eqb_eq in E. split; [tauto | discriminate].
  - apply String.eqb_neq in E. rewrite <- IH. tauto.
Qed.

Lemma mapM_ext_in {A B} (f g : A -> Outcome B) (l : list A) :
  (forall a, In a l -> f a = g a) -> mapM f l = mapM g l.
Proof.
  induction l as [|a l IH]; simpl; intros H; [reflexivity|].
  rewrite H by auto. rewrite IH by auto. reflexivity.
Qed.

Lemma mapM_map {A B C} (h : A -> B) (f : B -> Outcome C) (l : list A) :
  mapM f (map h l) = mapM (fun a => f (h a)) l.
Proof.
  induction l as [|a l IH]; simpl; [reflexivity|]. now rewrite IH.
Qed.

(** *** The order of the keys *)

Lemma declared_distinct_fold {A} (decl : list (string * A)) :
  NoDup (map fst decl) ->
  forall acc,
    (forall k, In k (map fst decl) -> ~ In k (map fst acc)) ->
    fold_left (fun props kv => set props (fst kv) (snd kv)) decl acc =
      (acc ++ decl)%list.
Proof.
  induction decl as [|[k v] decl IH]; simpl; intros Hnd acc Hfresh.
  - now rewrite app_nil_r.
  - inversion Hnd as [|? ? Hnot Hnd']; subst.
    rewrite set_fresh by (apply Hfresh; left; reflexivity).
    rewrite IH; auto.
    + now rewrite <- app_assoc.
    + intros k' Hk'. rewrite map_app, in_app_iff. simpl.
      intros [H | [-> | []]]; [|tauto].
      apply (Hfresh k'); [right; exact Hk' | exact H].
Qed.

Lemma declared_distinct {A} (decl : list (string * A)) :
  NoDup (map fst decl) -> declared decl = enumerate decl.
Proof.
  intros Hnd. unfold declared.
  rewrite declared_distinct_fold; auto.
Qed.

Lemma insert_by_index_perm {A} (kv : string * A) l :
  Permutation (insert_by_index kv l) (kv :: l).
Proof.
  induction l as [|kv' l IH]; simpl; [reflexivity|].
  destruct (index_of_key (fst kv) <=? index_of_key (fst kv'))%N;
    [reflexivity|].
  rewrite IH. apply perm_swap.
Qed.

Lemma sort_by_index_perm {A} (l : list (string * A)) :
  Permutation (fold_right insert_by_index [] l) l.
Proof.
  induction l as [|kv l IH]; simpl; [reflexivity|].
  rewrite insert_by_index_perm. now rewrite IH.
Qed.

Lemma filter_split_perm {A} (p : A -> Datatypes.bool) (l : list A) :
  Permutation (filter p l ++ filter (fun a => negb (p a)) l) l.
Proof.
  induction l as [|a l IH]; simpl; [reflexivity|].
  destruct (p a); simpl.
  - now rewrite IH.
  - rewrite <- Permutation_middle. now rewrite IH.
Qed.

Lemma enumerate_perm {A} (props : list (string * A)) :
  Permutation (enumerate props) props.
Proof.
  unfold enumerate. rewrite sort_by_index_perm. apply filter_split_perm.
Qed.

Lemma enumerate_no_index {A} (props : list (string * A)) :
  Forall (fun kv => is_array_index (fst kv) = false) props ->
  enumerate props = props.
Proof.
  intros H. unfold enumerate.
  assert (E1 : filter (fun kv => is_array_index (fst kv)) props = []).
  { induction H as [|kv l Hkv _ IH]; cbn [filter]; [reflexivity|].
    now rewrite Hkv. }
  assert (E2 : filter (fun kv => negb (is_array_index (fst kv))) props = props).
  { clear E1. induction H as [|kv l Hkv _ IH]; cbn [filter]; [reflexivity|].
    rewrite Hkv. cbn [negb]. now rewrite IH. }
  rewrite E1, E2. reflexivity.
Qed.

Lemma insert_by_index_sorted {A} (kv : string * A) l :
  Sorted (fun a b => (index_of_key (fst a) <= index_of_key (fst b))%N) l ->
  Sorted (fun a b => (index_of_key (fst a) <= index_of_key (fst b))%N)
         (insert_by_index kv l).
Proof.
  induction l as [|kv' l IH]; simpl; intros Hs.
  - repeat constructor.
  - destruct (index_of_key (fst kv) <=? index_of_key (fst kv'))%N eqn:E.
    + apply N.leb_le in E. constructor; [exact Hs | constructor; exact E].
    + apply N.leb_gt in E. inversion Hs as [|? ? Hs' Hhd]; subst.
      constructor; [apply IH; exact Hs'|].
      destruct l as [|kv'' l]; simpl.
      * constructor. lia.
      * destruct (index_of_key (fst kv) <=? index_of_key (fst kv''))%N;
          constructor; [lia|].
        inversion Hhd; subst; assumption.
Qed.

Lemma sort_by_index_sorted {A} (l : list (string * A)) :
  Sorted (fun a b => (index_of_key (fst a) <= index_of_key (fst b))%N)
         (fold_right insert_by_index [] l).
Proof.
  induction l as [|kv l IH]; simpl; [constructor|].
  apply insert_by_index_sorted, IH.
Qed.

Lemma array_index_spec key n :
  array_index key = Some n <->
  key = digits_of (Z.of_N n) /\ (n <= 4294967294)%N.
Proof.
  unfold array_index. split.
  - destruct (NilZero.uint_of_string key) as [u|]; [|discriminate].
    destruct (String.eqb _ key && _)%bool eqn:E; [|discriminate].
    intros H; injection H as <-.
    apply andb_true_iff in E as [E1 E2].
    apply String.eqb_eq in E1. apply N.leb_le in E2. auto.
  - intros [-> Hn]. unfold digits_of. rewrite N2Z.id.
    assert (Hu : NilZero.uint_of_string (NilZero.string_of_uint (N.to_uint n))
                 = Some (N.to_uint n)).
    { apply NilZero.usu. destruct n; [discriminate|].
      simpl. intros H. apply (f_equal Pos.of_uint) in H.
      rewrite DecimalPos.Unsigned.of_to in H. discriminate. }
    rewrite Hu. cbv zeta.
    rewrite DecimalN.Unsigned.of_to, N2Z.id, String.eqb_refl.
    apply N.leb_le in Hn. now rewrite Hn.
Qed.

Lemma enumerate_keys_distinct {A} (props : list (string * A)) :
  NoDup (map fst props) -> NoDup (map fst (enumerate props)).
Proof.
  intros H. eapply Permutation_NoDup; [|exact H].
  apply Permutation_map, Permutation_sym, enumerate_perm.
Qed.

Lemma enumerate_keys_In {A} (props : list (string * A)) k :
  In k (map fst (enumerate props)) <-> In k (map fst props).
Proof.
  split; apply Permutation_in, Permutation_map;
    [|apply Permutation_sym]; apply enumerate_perm.
Qed.

(** *** The loops *)

Lemma assign_plain out key v :
  key <> "__proto__" -> assign out key v = Ok (set out key v).
Proof.
  intros H. unfold assign.
  destruct (String.eqb key "__proto__") eqn:E; [|reflexivity].
  apply String.eqb_eq in E. contradiction.
Qed.

(** The loop of [obj(def).read] over keys not yet in [out]: each key adds
    one property, in the order visited. *)
Lemma obj_read_loop_spec wrap (def : Def) props :
  forall keys out,
    NoDup keys ->
    ~ In "__proto__" keys ->
    (forall k, In k keys -> ~ In k (map fst out)) ->
    obj_read_loop wrap def (JObj props) keys out =
      (l <- mapM (fun k => d <- member def k ;;
                           x <- get (JObj props) k ;;
                           v <- read (wrap d) x ;;
                           Ok (k, v)) keys ;;
       Ok (JObj (out ++ l))).
Proof.
  induction keys as [|key keys IH]; intros out Hnd Hproto Hfresh.
  - simpl. now rewrite app_nil_r.
  - inversion Hnd as [|? ? Hnot Hnd']; subst.
    cbn [obj_read_loop instanceof_Object instanceof_Array negb andb mapM].
    destruct (member def key) as [d| | |]; cbn [bind]; try reflexivity.
    destruct (get (JObj props) key) as [x| | |]; cbn [bind]; try reflexivity.
    destruct (read (wrap d) x) as [v| | |]; cbn [bind]; try reflexivity.
    rewrite assign_plain by (intros ->; apply Hproto; left; reflexivity).
    cbn [bind].
    rewrite set_fresh by (apply Hfresh; left; reflexivity).
    rewrite IH; auto.
    + destruct (mapM _ keys); cbn [bind]; try reflexivity.
      now rewrite <- app_assoc.
    + intros H; apply Hproto; right; exact H.
    + intros k Hk. rewrite map_app, in_app_iff. simpl.
      intros [H | [-> | []]]; [|tauto].
      apply (Hfresh k); [right; exact Hk | exact H].
Qed.

Lemma obj_write_loop_spec wrap (def : Def) (r : JsVal) :
  forall keys out,
    NoDup keys ->
    ~ In "__proto__" keys ->
    (forall k, In k keys -> ~ In k (map fst out)) ->
    obj_write_loop wrap def r keys out =
      (l <- mapM (fun k => d <- member def k ;;
                           x <- get r k ;;
                           v <- write (wrap d) x ;;
                           Ok (k, v)) keys ;;
       Ok (JObj (out ++ l))).
Proof.
  induction keys as [|key keys IH]; intros out Hnd Hproto Hfresh.
  - simpl. now rewrite app_nil_r.
  - inversion Hnd as [|? ? Hnot Hnd']; subst.
    cbn [obj_write_loop mapM].
    destruct (member def key) as [d| | |]; cbn [bind]; try reflexivity.
    destruct (get r key) as [x| | |]; cbn [bind]; try reflexivity.
    destruct (write (wrap d) x) as [v| | |]; cbn [bind]; try reflexivity.
    rewrite assign_plain by (intros ->; apply Hproto; left; reflexivity).
    cbn [bind].
    rewrite set_fresh by (apply Hfresh; left; reflexivity).
    rewrite IH; auto.
    + destruct (mapM _ keys); cbn [bind]; try reflexivity.
      now rewrite <- app_assoc.
    + intros H; apply Hproto; right; exact H.
    + intros k Hk. rewrite map_app, in_app_iff. simpl.
      intros [H | [-> | []]]; [|tauto].
      apply (Hfresh k); [right; exact Hk | exact H].
Qed.

Lemma member_declared (def : Def) k d :
  NoDup (map fst def) -> In (k, d) (enumerate def) -> member def k = Ok d.
Proof.
  intros Hnd Hin. unfold member. rewrite declared_distinct by exact Hnd.
  now rewrite (lookup_In _ k d (enumerate_keys_distinct def Hnd) Hin).
Qed.

(** Reading with [obj] or [partial_obj] from an ordinary object. *)
Lemma obj_read_fields wrap (def : Def) props :
  NoDup (map fst def) ->
  ~ In "__proto__" (map fst def) ->
  obj_read_loop wrap def (JObj props) (Object_keys def) [] =
    (l <- mapM (fun kd => x <- get (JObj props) (fst kd) ;;
                          v <- read (wrap (snd kd)) x ;;
                          Ok (fst kd, v)) (enumerate def) ;;
     Ok (JObj l)).
Proof.
  intros Hnd Hproto. unfold Object_keys.
  rewrite declared_distinct by exact Hnd.
  rewrite obj_read_loop_spec.
  - rewrite mapM_map. cbn [app]. f_equal.
    apply mapM_ext_in. intros [k d] Hin. cbn [fst snd].
    now rewrite (member_declared def k d Hnd Hin).
  - apply enumerate_keys_distinct, Hnd.
  - now rewrite enumerate_keys_In.
  - intros k _ [].
Qed.

(** Writing with [obj] or [partial_obj]. *)
Lemma obj_write_fields wrap (def : Def) (r : JsVal) :
  NoDup (map fst def) ->
  ~ In "__proto__" (map fst def) ->
  obj_write_loop wrap def r (Object_keys def) [] =
    (l <- mapM (fun kd => x <- get r (fst kd) ;;
                          v <- write (wrap (snd kd)) x ;;
                          Ok (fst kd, v)) (enumerate def) ;;
     Ok (JObj l)).
Proof.
  intros Hnd Hproto. unfold Object_keys.
  rewrite declared_distinct by exact Hnd.
  rewrite obj_write_loop_spec.
  - rewrite mapM_map. cbn [app]. f_equal.
    apply mapM_ext_in. intros [k d] Hin. cbn [fst snd].
    now rewrite (member_declared def k d Hnd Hin).
  - apply enumerate_keys_distinct, Hnd.
  - now rewrite enumerate_keys_In.
  - intros k _ [].
Qed.

Lemma mapM_first_failure {A B} (f : A -> Outcome B) pre a post w g :
  (forall x, In x pre -> exists b, f x = Ok b) ->
  f a = ParseError w g ->
  mapM f (pre ++ a :: post) = ParseError w g.
Proof.
  induction pre as [|x pre IH]; simpl; intros Hpre Ha.
  - now rewrite Ha.
  - destruct (Hpre x) as (b & ->); [auto|]. simpl.
    rewrite IH; auto.
Qed.

Lemma Sorted_strengthen {A} (R R' : A -> A -> Prop) (P : A -> Prop) l :
  (forall a b, P a -> P b -> R a b -> R' a b) ->
  Forall P l -> Sorted R l -> Sorted R' l.
Proof.
  intros HR HP Hs. induction Hs as [|a l Hs IH Hhd]; [constructor|].
  inversion HP as [|? ? Pa Pl]; subst.
  constructor; [apply IH; exact Pl|].
  destruct Hhd as [|b l Hab]; constructor.
  inversion Pl; subst. apply HR; assumption.
Qed.

(** C5, counterexample.  The fields are not read in declaration order
    when a declared name is an array index: [Object.keys] puts such names
    first.  [obj({b: str, 1: int})] reads the field [1] before the field
    [b], so on [{1: "x", b: 5}] it fails expecting an "integer" for ["x"],
    where the first declared field, [b], would fail expecting a
    "string". *)
Lemma obj_decode_counterexample :
  read (obj [("b", str); ("1", int)])
       (JObj [("1", JStr "x"); ("b", JNum (of_Z 5))]) =
    ParseError "integer" (JStr "x") /\
  read str (field [("1", JStr "x"); ("b", JNum (of_Z 5))] "b") =
    ParseError "string" (JNum (of_Z 5)) /\
  Object_keys [("b", str); ("1", int)] = ["1"; "b"].
Proof.
  split; [vm_compute; reflexivity|].
  split; [vm_compute; reflexivity|].
  vm_compute; reflexivity.
Qed.

(** C5, amended.  For a definition with at least one field (names
    distinct, none of them [__proto__]), [obj(def).read] of an ordinary
    object reads the declared names in the order of [Object.keys(def)] --
    the names that are array indices first, in ascending numeric order,
    then the other names in declaration order, which is the declaration
    order when no name is an array index -- each as
    [def[name].read(input[name])]; [input[name]] is the own property
    when there is one and [undefined] when there is none and
    [Object.prototype] does not define the name.  The first field whose
    read fails aborts the call with that field's error.  On any other
    input (an array, a scalar, [null], [undefined]) the call fails
    expecting "an object". *)
Theorem obj_decode_in_key_order (def : Def) :
  def <> [] ->
  NoDup (map fst def) ->
  ~ In "__proto__" (map fst def) ->
  (forall props,
     read (obj def) (JObj props) =
       (l <- mapM (fun kd => x <- get (JObj props) (fst kd) ;;
                             v <- read (snd kd) x ;;
                             Ok (fst kd, v)) (enumerate def) ;;
        Ok (JObj l))) /\
  (Permutation (enumerate def) def /\
   (exists indices,
      enumerate def =
        (indices ++ filter (fun kd => negb (is_array_index (fst kd))) def)%list /\
      Sorted (fun a b => exists n m,
                array_index (fst a) = Some n /\ array_index (fst b) = Some m /\
                (n <= m)%N) indices) /\
   (Forall (fun kd => array_index (fst kd) = None) def -> enumerate def = def) /\
   (forall key n, array_index key = Some n <->
                  key = digits_of (Z.of_N n) /\ (n <= 4294967294)%N)) /\
  ((forall props k v, lookup k props = Some v -> get (JObj props) k = Ok v) /\
   (forall props k, ~ In k (map fst props) -> ~ In k object_prototype_names ->
                    get (JObj props) k = Ok JUndefined)) /\
  (forall props pre kd post x w g,
     enumerate def = (pre ++ kd :: post)%list ->
     (forall kd', In kd' pre ->
        exists x' v, get (JObj props) (fst kd') = Ok x' /\
                     read (snd kd') x' = Ok v) ->
     get (JObj props) (fst kd) = Ok x ->
     read (snd kd) x = ParseError w g ->
     read (obj def) (JObj props) = ParseError w g) /\
  (forall o, (forall props, o <> JObj props) ->
     read (obj def) o = ParseError "an object" o).
Proof.
  intros Hne Hnd Hproto.
  assert (Hr : forall props,
     read (obj def) (JObj props) =
       (l <- mapM (fun kd => x <- get (JObj props) (fst kd) ;;
                             v <- read (snd kd) x ;;
                             Ok (fst kd, v)) (enumerate def) ;;
        Ok (JObj l))).
  { intros props. unfold obj; cbn [read].
    exact (obj_read_fields (fun d => d) def props Hnd Hproto). }
  split; [exact Hr|]. split; [|split; [|split]].
  - split; [apply enumerate_perm|]. split; [|split].
    + exists (fold_right insert_by_index []
                (filter (fun kv => is_array_index (fst kv)) def)).
      split; [reflexivity|].
      apply (Sorted_strengthen
               (fun a b => (index_of_key (fst a) <= index_of_key (fst b))%N) _
               (fun kd => is_array_index (fst kd) = true)).
      * intros a b Ha Hb Hab. unfold is_array_index, index_of_key in *.
        destruct (array_index (fst a)) as [n|]; [|discriminate].
        destruct (array_index (fst b)) as [m|]; [|discriminate].
        exists n, m. auto.
      * apply Forall_forall. intros kd Hin.
        apply (Permutation_in _ (sort_by_index_perm _)) in Hin.
        apply filter_In in Hin. tauto.
      * apply sort_by_index_sorted.
    + intros H. apply enumerate_no_index.
      eapply Forall_impl; [|exact H]. intros kd E. cbv beta in E.
      unfold is_array_index. now rewrite E.
    + apply array_index_spec.
  - split.
    + intros props k v H. cbn [get]. now rewrite H.
    + intros props k Hk Hn. cbn [get].
      rewrite (proj1 (lookup_None props k) Hk).
      unfold inherited. cbn [app].
      destruct (is_in object_prototype_names k) eqn:E; [|reflexivity].
      unfold is_in in E. apply existsb_exists in E as (k' & Hin & E).
      apply String.eqb_eq in E. subst k'. contradiction.
  - intros props pre kd post x w g Hsplit Hpre Hx Hd. rewrite Hr, Hsplit.
    rewrite (mapM_first_failure _ pre kd post w g); [reflexivity| |].
    + intros kd' Hin. destruct (Hpre kd' Hin) as (x' & v & -> & Hv).
      cbn [bind]. rewrite Hv. cbn [bind]. eauto.
    + rewrite Hx. cbn [bind]. now rewrite Hd.
  - intros o Ho.
    assert (Hk : exists k ks, Object_keys def = k :: ks).
    { unfold Object_keys. rewrite declared_distinct by exact Hnd.
      destruct (enumerate def) as [|kd l] eqn:E.
      - destruct def as [|kd def]; [congruence|].
        pose proof (enumerate_perm (kd :: def)) as Hp. rewrite E in Hp.
        apply Permutation_nil in Hp. discriminate.
      - simpl. eauto. }
    destruct Hk as (k & ks & Hk).
    unfold obj; cbn [read]. rewrite Hk. cbn [obj_read_loop].
    destruct o; try reflexivity. exfalso; eapply Ho; reflexivity.
Qed.

Lemma obj_decode_in_key_order_witness :
  read (obj [("a", str); ("b", int)])
       (JObj [("a", JStr "x"); ("b", JStr "notanumber")]) =
    ParseError "integer" (JStr "notanumber") /\
  read (obj [("a", str)]) (JArr [JNum (of_Z 1); JNum (of_Z 2)]) =
    ParseError "an object" (JArr [JNum (of_Z 1); JNum (of_Z 2)]) /\
  enumerate [("a", str); ("b", int)] = [("a", str); ("b", int)].
Proof.
  assert (Hnd : NoDup (map fst [("a", str); ("b", int)])).
  { repeat constructor; simpl; intuition discriminate. }
  assert (Hp : ~ In "__proto__" (map fst [("a", str); ("b", int)])).
  { simpl; intuition discriminate. }
  assert (Hnd1 : NoDup (map fst [("a", str)])).
  { repeat constructor; simpl; intuition discriminate. }
  assert (Hp1 : ~ In "__proto__" (map fst [("a", str)])).
  { simpl; intuition discriminate. }
  split; [|split].
  - destruct (obj_decode_in_key_order [("a", str); ("b", int)])
      as (_ & _ & _ & H & _); [discriminate | exact Hnd | exact Hp |].
    apply (H _ [("a", str)] ("b", int) [] (JStr "notanumber"));
      [reflexivity | | reflexivity | reflexivity].
    intros kd' [<- | []]. exists (JStr "x"), (JStr "x"). split; reflexivity.
  - destruct (obj_decode_in_key_order [("a", str)]) as (_ & _ & _ & _ & H);
      [discriminate | exact Hnd1 | exact Hp1 |].
    apply H. discriminate.
  - destruct (obj_decode_in_key_order [("a", str); ("b", int)])
      as (_ & (_ & _ & H & _) & _); [discriminate | exact Hnd | exact Hp |].
    apply H. repeat constructor.
Defined.
(** ** Variants *)

Lemma filter_index_tagged (alts : list (string * SafeSerializer)) :
  forall i, Nat.even i = true ->
    filter_index Nat.even i (tagged alts) = map Tag (map fst alts) /\
    filter_index Nat.odd i (tagged alts) = map Ser (map snd alts).
Proof.
  induction alts as [|[t s] alts IH]; intros i Hi; [split; reflexivity|].
  assert (Ho : Nat.odd i = false) by (unfold Nat.odd; now rewrite Hi).
  assert (Hi1 : Nat.even (S i) = false).
  { rewrite Nat.even_succ. exact Ho. }
  assert (Ho1 : Nat.odd (S i) = true) by (unfold Nat.odd; now rewrite Hi1).
  destruct (IH (S (S i))) as (IH1 & IH2); [exact Hi|].
  cbn [tagged filter_index map fst snd].
  rewrite Hi, Ho, Hi1, Ho1, IH1, IH2. split; reflexivity.
Qed.

Lemma indexOf_bounds {A B} (eqb : A -> B -> Datatypes.bool) l x :
  indexOf eqb l x = -1 \/ 0 <= indexOf eqb l x.
Proof.
  induction l as [|a l IH]; simpl; [left; reflexivity|].
  destruct (eqb a x); [right; lia|].
  destruct (indexOf eqb l x =? -1) eqn:E; [left; reflexivity|].
  right. apply Z.eqb_neq in E. lia.
Qed.

Lemma indexOf_first (pre post : list string) t :
  ~ In t pre ->
  indexOf strict_eq_arg (map Tag (pre ++ t :: post)) (JStr t) =
    Z.of_nat (List.length pre).
Proof.
  induction pre as [|t' pre IH]; intros Hn.
  - simpl. now rewrite String.eqb_refl.
  - cbn [app map indexOf strict_eq_arg strict_eq_string List.length].
    destruct (String.eqb t' t) eqn:E.
    + apply String.eqb_eq in E. subst. exfalso; apply Hn; left; reflexivity.
    + rewrite IH by (intros H; apply Hn; right; exact H).
      destruct (Z.of_nat (List.length pre) =? -1) eqn:E';
        [apply Z.eqb_eq in E'|]; lia.
Qed.

Lemma indexOf_none (tags : list string) ty :
  (forall t, In t tags -> ty <> JStr t) ->
  indexOf strict_eq_arg (map Tag tags) ty = -1.
Proof.
  induction tags as [|t tags IH]; intros H; [reflexivity|].
  cbn [map indexOf strict_eq_arg].
  assert (E : strict_eq_string t ty = false).
  { destruct ty; try reflexivity. simpl.
    destruct (String.eqb t s) eqn:E; [|reflexivity].
    apply String.eqb_eq in E; subst. exfalso. apply (H s); [left|]; reflexivity. }
  rewrite E, IH; [reflexivity|].
  intros t' Ht'. apply H. right; exact Ht'.
Qed.

Lemma item_middle {A} (pre post : list A) a :
  item (pre ++ a :: post) (Z.of_nat (List.length pre)) = Some a.
Proof.
  unfold item. destruct (Z.of_nat (List.length pre) <? 0) eqn:E;
    [apply Z.ltb_lt in E; lia|].
  rewrite Nat2Z.id. rewrite nth_error_app2 by lia.
  now rewrite Nat.sub_diag.
Qed.

Lemma merged_keys (payload : list (string * JsVal)) (type : JsVal) :
  map fst (set payload "type" type) =
    if has_own "type" payload then map fst payload
    else (map fst payload ++ ["type"])%list.
Proof.
  unfold has_own. destruct (lookup "type" payload) eqn:E.
  - apply set_keys_present.
    destruct (in_dec string_dec "type" (map fst payload)) as [H | H];
      [exact H|].
    apply lookup_None in H. congruence.
  - apply lookup_None in E. rewrite set_fresh by exact E.
    rewrite map_app. reflexivity.
Qed.

(** C4. For [variant(tag0, schema0, tag1, schema1, ...)] and an input
    whose [type] field can be read: when the field equals a declared tag,
    the first alternative carrying that tag is selected and its serializer
    reads the whole input; a failure of that read is the failure of the
    call, and the object it returns is returned with the property [type]
    set to the input's [type] -- the other properties unchanged, [type]
    in its place when the payload has one and last otherwise.  When the
    field equals no declared tag, the call fails expecting "type in"
    followed by the JSON rendering of the array of declared tags. *)
Theorem variant_dispatch (alts : list (string * SafeSerializer))
  (o type : JsVal) :
  get o "type" = Ok type ->
  (forall pre t s post,
     alts = (pre ++ (t, s) :: post)%list ->
     ~ In t (map fst pre) ->
     type = JStr t ->
     (forall payload, read s o = Ok (JObj payload) ->
        exists props,
          read (variant (tagged alts)) o = Ok (JObj props) /\
          lookup "type" props = Some type /\
          (forall k, k <> "type" -> lookup k props = lookup k payload) /\
          map fst props =
            if has_own "type" payload then map fst payload
            else (map fst payload ++ ["type"])%list) /\
     (forall w g, read s o = ParseError w g ->
        read (variant (tagged alts)) o = ParseError w g) /\
     (read s o = TypeError -> read (variant (tagged alts)) o = TypeError)) /\
  ((forall t, In t (map fst alts) -> type <> JStr t) ->
     read (variant (tagged alts)) o =
       ParseError ("type in [" ++ concat "," (map quote (map fst alts)) ++ "]") o).
Proof.
  intros Hty.
  destruct (filter_index_tagged alts 0 eq_refl) as (Ht & Hs).
  split.
  - intros pre t s post -> Hn ->.
    assert (Hread : read (variant (tagged (pre ++ (t, s) :: post))) o =
              (r <- read s o ;; Ok (JObj (set (spread r) "type" (JStr t))))).
    { unfold variant; cbn [read]. rewrite Hty, Ht, Hs. cbn [bind].
      rewrite (map_app fst), (map_app snd). cbn [map fst snd].
      rewrite indexOf_first by exact Hn.
      rewrite length_map, (map_app Ser). cbn [map].
      destruct (Z.of_nat (List.length pre) =? -1) eqn:E;
        [apply Z.eqb_eq in E; lia|].
      replace (List.length pre) with (List.length (map Ser (map snd pre)))
        by now rewrite !length_map.
      rewrite item_middle. reflexivity. }
    split; [|split].
    + intros payload Hp. exists (set payload "type" (JStr t)).
      rewrite Hread, Hp. cbn [bind spread].
      split; [reflexivity|]. split; [apply lookup_set_same|].
      split; [|apply merged_keys].
      intros k Hk. now apply lookup_set_other.
    + intros w g Hp. rewrite Hread, Hp. reflexivity.
    + intros Hp. rewrite Hread, Hp. reflexivity.
  - intros Hnone.
    unfold variant; cbn [read]. rewrite Hty, Ht. cbn [bind].
    rewrite indexOf_none by exact Hnone. cbn [Z.eqb].
    unfold parseError, JSON_stringify. rewrite map_map. reflexivity.
Qed.

Lemma variant_dispatch_witness :
  read (variant (tagged [("add", obj [("amount", int)]);
                         ("remove", obj [("amount", int)])]))
       (JObj [("type", JStr "add"); ("amount", JNum (of_Z 3))]) =
    Ok (JObj [("amount", JNum (of_Z 3)); ("type", JStr "add")]) /\
  read (variant (tagged [("add", obj [("amount", int)]);
                         ("remove", obj [("amount", int)])]))
       (JObj [("type", JStr "multiply"); ("amount", JNum (of_Z 3))]) =
    ParseError
      ("type in [" ++ double_quote ++ "add" ++ double_quote ++ ","
                   ++ double_quote ++ "remove" ++ double_quote ++ "]")
      (JObj [("type", JStr "multiply"); ("amount", JNum (of_Z 3))]).
Proof.
  split.
  - destruct (proj1 (variant_dispatch
                    [("add", obj [("amount", int)]);
                     ("remove", obj [("amount", int)])]
                    (JObj [("type", JStr "add"); ("amount", JNum (of_Z 3))])
                    (JStr "add") eq_refl)
             [] "add" (obj [("amount", int)])
             [("remove", obj [("amount", int)])] eq_refl
             (fun H : In "add" [] => H) eq_refl) as (H & _ & _).
    destruct (H [("amount", JNum (of_Z 3))]) as (props & -> & Hty & Hoth & Hkeys);
      [vm_compute; reflexivity|].
    do 2 f_equal. cbn in Hkeys.
    destruct props as [|[k1 v1] [|[k2 v2] [|]]]; try discriminate Hkeys.
    injection Hkeys as -> ->.
    specialize (Hoth "amount" ltac:(discriminate)).
    cbn in Hoth, Hty. injection Hoth as ->. injection Hty as ->.
    reflexivity.
  - apply (proj2 (variant_dispatch
                    [("add", obj [("amount", int)]);
                     ("remove", obj [("amount", int)])]
                    (JObj [("type", JStr "multiply"); ("amount", JNum (of_Z 3))])
                    (JStr "multiply") eq_refl)).
    simpl. intros t [<- | [<- | []]]; discriminate.
Defined.

Lemma call_Ok method a x v :
  call method a x = Ok v -> exists s, a = Some (Ser s) /\ method s x = Ok v.
Proof.
  destruct a as [[t|s]|]; simpl; intros H; try discriminate; eauto.
Qed.

Lemma merged_type (r type : JsVal) :
  get (JObj (set (spread r) "type" type)) "type" = Ok type /\
  forall k, k <> "type" ->
    field_of (JObj (set (spread r) "type" type)) k = field (spread r) k.
Proof.
  split; cbn [get field_of].
  - now rewrite lookup_set_same.
  - intros k Hk. unfold field. now rewrite lookup_set_other.
Qed.

(** C10. Whatever the arguments of [variant], a value it reads carries the
    [type] of the input, and a value it writes carries the [type] of the
    value written: the result is the selected serializer's result with
    [type] set afterwards, so a [type] property produced by the payload
    serializer itself is overwritten and every other property is kept. *)
Theorem variant_type_overrides (args : list Arg) :
  (forall o t, read (variant args) o = Ok t ->
     exists type s r,
       get o "type" = Ok type /\
       In (Ser s) args /\
       read s o = Ok r /\
       t = JObj (set (spread r) "type" type) /\
       get t "type" = Ok type /\
       (forall k, k <> "type" -> field_of t k = field (spread r) k)) /\
  (forall t v, write (variant args) t = Ok v ->
     exists type s w,
       get t "type" = Ok type /\
       In (Ser s) args /\
       write s t = Ok w /\
       v = JObj (set (spread w) "type" type) /\
       get v "type" = Ok type /\
       (forall k, k <> "type" -> field_of v k = field (spread w) k)).
Proof.
  assert (Hin : forall p i a, In a (filter_index p i args) -> In a args).
  { intros p. induction args as [|b l IH]; simpl; intros i a H; [tauto|].
    destruct (p i); [destruct H as [->|H]|]; eauto. }
  assert (Hitem : forall (l : list Arg) i a, item l i = Some a -> In a l).
  { intros l i a. unfold item. destruct (i <? 0); [discriminate|].
    apply nth_error_In. }
  split.
  - intros o t H. unfold variant in H; cbn [read] in H.
    apply bind_Ok in H as (type & Hty & H).
    destruct (_ =? -1); [discriminate|].
    apply bind_Ok in H as (r & Hr & H). injection H as <-.
    apply call_Ok in Hr as (s & Hs & Hr).
    exists type, s, r. destruct (merged_type r type) as (M1 & M2).
    repeat split; eauto.
  - intros t v H. unfold variant in H; cbn [write] in H.
    apply bind_Ok in H as (type & Hty & H).
    apply bind_Ok in H as (w & Hw & H). injection H as <-.
    apply call_Ok in Hw as (s & Hs & Hw).
    exists type, s, w. destruct (merged_type w type) as (M1 & M2).
    repeat split; eauto.
Qed.

Lemma variant_type_overrides_witness :
  (exists type s r,
     get (JObj [("type", JStr "1")]) "type" = Ok type /\
     In (Ser s) (tagged [("1", obj [("type", int)])]) /\
     read s (JObj [("type", JStr "1")]) = Ok r /\
     JObj [("type", JStr "1")] = JObj (set (spread r) "type" type) /\
     get (JObj [("type", JStr "1")]) "type" = Ok type /\
     (forall k, k <> "type" ->
        field_of (JObj [("type", JStr "1")]) k = field (spread r) k)) /\
  read (obj [("type", int)]) (JObj [("type", JStr "1")]) =
    Ok (JObj [("type", JNum (of_Z 1))]).
Proof.
  split; [|reflexivity].
  apply (proj1 (variant_type_overrides (tagged [("1", obj [("type", int)])]))
           (JObj [("type", JStr "1")]) (JObj [("type", JStr "1")])).
  reflexivity.
Defined.

(** ** Numeric leniency *)

Lemma shr_1_nonneg mrs : 0 <= shr_m mrs -> 0 <= shr_m (shr_1 mrs).
Proof.
  destruct mrs as [m r s]; simpl. destruct m as [|[p|p|]|[p|p|]]; simpl; lia.
Qed.

Lemma iter_shr_1_nonneg p :
  forall mrs, 0 <= shr_m mrs -> 0 <= shr_m (iter_pos shr_1 p mrs).
Proof.
  induction p as [p IH|p IH|]; simpl; intros mrs H.
  - apply IH, IH, shr_1_nonneg, H.
  - apply IH, IH, H.
  - apply shr_1_nonneg, H.
Qed.

Lemma shr_fexp_nonneg prec emax m e l :
  0 <= m -> 0 <= shr_m (fst (shr_fexp prec emax m e l)).
Proof.
  intros H. unfold shr_fexp, shr.
  assert (H0 : 0 <= shr_m (shr_record_of_loc m l)).
  { destruct l as [|[]]; simpl; exact H. }
  destruct (fexp prec emax (Zdigits2 m + e) - e); simpl; auto.
  apply iter_shr_1_nonneg, H0.
Qed.

Lemma binary_round_aux_not_nan prec emax sx mx ex lx :
  0 <= mx -> isNaN (binary_round_aux prec emax sx mx ex lx) = false.
Proof.
  intros H. unfold binary_round_aux.
  pose proof (shr_fexp_nonneg prec emax mx ex lx H) as H1.
  destruct (shr_fexp prec emax mx ex lx) as [mrs' e']. simpl in H1.
  set (m1 := round_nearest_even (shr_m mrs') (loc_of_shr_record mrs')).
  assert (H2 : 0 <= m1).
  { unfold m1, round_nearest_even.
    destruct (loc_of_shr_record mrs') as [|[]]; try lia.
    destruct (Z.even (shr_m mrs')); lia. }
  pose proof (shr_fexp_nonneg prec emax m1 e' loc_Exact H2) as H3.
  destruct (shr_fexp prec emax m1 e' loc_Exact) as [mrs'' e'']. simpl in H3.
  destruct (shr_m mrs'') as [|m|m]; try reflexivity; [|lia].
  destruct (e'' <=? emax - prec); reflexivity.
Qed.

Lemma round_ratio_not_nan neg p q : isNaN (round_ratio neg p q) = false.
Proof.
  unfold round_ratio, SFdiv.
  destruct (SFdiv_core_binary 53 1024 (Z.pos p) 0 (Z.pos q) 0)
    as [[mz ez] lz] eqn:E.
  apply binary_round_aux_not_nan.
  unfold SFdiv_core_binary in E.
  set (m' := match _ - _ - _ with Z.pos _ => _ | Z0 => _ | Z.neg _ => _ end) in E.
  assert (Hm : 0 <= m').
  { unfold m'. destruct (_ - _ - _); try lia. apply Z.shiftl_nonneg. lia. }
  pose proof (Z.div_pos m' (Z.pos q) Hm ltac:(lia)) as Hq.
  unfold Z.div in Hq. destruct (Z.div_eucl m' (Z.pos q)) as [q0 r0].
  injection E as <- _ _. exact Hq.
Qed.

Lemma decimal_to_number_not_nan neg s p :
  isNaN (decimal_to_number neg s p) = false.
Proof.
  unfold decimal_to_number. destruct s; try reflexivity.
  destruct (0 <=? p); apply round_ratio_not_nan.
Qed.

Lemma radix_digit_not_decimal c :
  is_decimal_digit c = false -> radix_digit 10 c = None.
Proof.
  unfold is_decimal_digit, radix_digit, digit_of. intros H.
  set (n := N_of_ascii c) in *.
  assert (Hn : ~ (48 <= Z.of_N n <= 57)).
  { intros [H1 H2]. apply andb_false_iff in H as [H | H];
      apply N.leb_gt in H; lia. }
  destruct ((48 <=? Z.of_N n) && (Z.of_N n <=? 57)) eqn:E1.
  { apply andb_true_iff in E1 as [E1 E2]. lia. }
  destruct ((97 <=? Z.of_N n) && (Z.of_N n <=? 122)) eqn:E2.
  { apply andb_true_iff in E2 as [E2 E3].
    destruct (Z.of_N n - 87 <? 10) eqn:E; [lia | reflexivity]. }
  destruct ((65 <=? Z.of_N n) && (Z.of_N n <=? 90)) eqn:E3; [|reflexivity].
  apply andb_true_iff in E3 as [E3 E4].
  destruct (Z.of_N n - 55 <? 10) eqn:E; [lia | reflexivity].
Qed.

(** The digits of a numeral are read back, up to the first character
    that is not a decimal digit. *)
Lemma span_digits_uint (u : Decimal.uint) (rest : string) :
  first_char is_decimal_digit rest = false ->
  span_digits 10 (NilEmpty.string_of_uint u ++ rest) = (uint_digits u, rest).
Proof.
  intros Hrest.
  induction u as [|u IH|u IH|u IH|u IH|u IH|u IH|u IH|u IH|u IH|u IH];
    try (cbn [NilEmpty.string_of_uint append span_digits uint_digits];
         change (span_digits 10 (String ?c ?r))
           with (let (ds, rest) := span_digits 10 r in (_ :: ds, rest));
         simpl; rewrite IH; reflexivity).
  simpl. destruct rest as [|c r]; [reflexivity|].
  simpl in *. now rewrite radix_digit_not_decimal.
Qed.

Lemma digits_value_acc (u : Decimal.uint) :
  forall acc,
    fold_left (fun a d => a * 10 + d) (uint_digits u) (Z.pos acc) =
    Z.pos (Pos.of_uint_acc u acc).
Proof.
  induction u; intros acc; cbn [uint_digits fold_left Pos.of_uint_acc];
    [reflexivity | rewrite <- IHu; f_equal; lia ..].
Qed.

Lemma digits_value_uint (u : Decimal.uint) :
  digits_value 10 (uint_digits u) = Z.of_N (N.of_uint u).
Proof.
  unfold digits_value, N.of_uint.
  induction u; cbn [uint_digits fold_left Pos.of_uint]; try exact IHu;
    try reflexivity; change (0 * 10 + ?d) with d;
    rewrite digits_value_acc; reflexivity.
Qed.

Lemma uint_digits_nonempty u : u <> Decimal.Nil -> uint_digits u <> [].
Proof.
  destruct u; simpl; congruence.
Qed.

Lemma string_of_uint_first u :
  u <> Decimal.Nil ->
  exists c r, NilEmpty.string_of_uint u = String c r /\
              is_decimal_digit c = true.
Proof.
  destruct u; [congruence | simpl; intros _; eauto ..].
Qed.

Lemma decimal_digit_plain c :
  is_decimal_digit c = true ->
  isWhiteSpace c = false /\ c <> "-"%char /\ c <> "+"%char /\
  c <> "I"%char.
Proof.
  unfold is_decimal_digit, isWhiteSpace. intros H.
  apply andb_true_iff in H as [H1 H2].
  apply N.leb_le in H1. apply N.leb_le in H2.
  repeat split; try (intros ->; simpl in *; lia).
  simpl. repeat (rewrite (proj2 (N.eqb_neq _ _)) by lia). reflexivity.
Qed.

Lemma of_Z_nonneg v : 0 <= v -> of_Z v = decimal_to_number false v 0.
Proof.
  intros H. unfold of_Z. rewrite Z.abs_eq by exact H.
  destruct (v <? 0) eqn:E; [apply Z.ltb_lt in E; lia | reflexivity].
Qed.

Lemma decimal_digit_cases c :
  is_decimal_digit c = true ->
  In c ["0"; "1"; "2"; "3"; "4"; "5"; "6"; "7"; "8"; "9"]%char.
Proof.
  destruct c as [[] [] [] [] [] [] [] []]; intros H; try discriminate H;
    simpl; tauto.
Qed.

Lemma digit_first_kept c r :
  is_decimal_digit c = true ->
  strip_sign (trimStart (String c r)) = (false, String c r) /\
  starts_with "Infinity" (String c r) = false.
Proof.
  intros H. apply decimal_digit_cases in H. simpl in H.
  repeat (destruct H as [<- | H]; [split; reflexivity|]). tauto.
Qed.

Lemma radix_ten (S : string) :
  starts_with "0x" S = false ->
  starts_with "0X" S = false ->
  match S with
  | String "0"%char (String c r) =>
      if (Ascii.eqb c "x" || Ascii.eqb c "X")%bool then (16, r) else (10, S)
  | _ => (10, S)
  end = (10, S).
Proof.
  intros Hx HX. destruct S as [|c S]; [reflexivity|].
  destruct (Ascii.eqb "0" c) eqn:E.
  - apply Ascii.eqb_eq in E; subst c. destruct S as [|c r]; [reflexivity|].
    cbn [starts_with] in Hx, HX.
    rewrite Ascii.eqb_refl, andb_true_r in Hx, HX. cbn [andb] in Hx, HX.
    rewrite (Ascii.eqb_sym c "x"), (Ascii.eqb_sym c "X"), Hx, HX. reflexivity.
  - destruct c as [[] [] [] [] [] [] [] []]; try reflexivity. discriminate E.
Qed.


(** *** Numeric text, piece by piece *)

Lemma white_isWhiteSpace c :
  existsb (Ascii.eqb c) white_space = true -> isWhiteSpace c = true.
Proof.
  intros H. apply existsb_exists in H as (c' & Hin & E).
  apply Ascii.eqb_eq in E. subst c'. simpl in Hin.
  repeat (destruct Hin as [<- | Hin]; [reflexivity|]). tauto.
Qed.

Lemma trimStart_white ws s :
  is_white ws = true -> trimStart (ws ++ s) = trimStart s.
Proof.
  unfold is_white. induction ws as [|c ws IH]; cbn [list_ascii_of_string forallb];
    intros H; [reflexivity|].
  apply andb_true_iff in H as [Hc Hws].
  cbn [append trimStart]. rewrite (white_isWhiteSpace c Hc). auto.
Qed.

(** The characters a number can start with are kept by [trimStart]. *)
Lemma trimStart_stop c s :
  (is_decimal_digit c || is_sign c || Ascii.eqb c "." || Ascii.eqb c "I")%bool
    = true ->
  trimStart (String c s) = String c s.
Proof.
  intros H. cbn [trimStart].
  destruct c as [[] [] [] [] [] [] [] []]; try discriminate H; reflexivity.
Qed.

Lemma strip_sign_none c s :
  is_sign c = false -> strip_sign (String c s) = (false, String c s).
Proof.
  intros H.
  destruct c as [[] [] [] [] [] [] [] []]; try discriminate H; reflexivity.
Qed.

Lemma digit_not_sign c :
  is_decimal_digit c = true -> is_sign c = false.
Proof.
  destruct c as [[] [] [] [] [] [] [] []]; intros H; try discriminate H;
    reflexivity.
Qed.

(** After the white space, the optional sign is taken off a text whose
    next character [c] starts a number. *)
Lemma sign_stripped ws sg c s :
  is_white ws = true ->
  is_sign c = false ->
  (is_decimal_digit c || Ascii.eqb c "." || Ascii.eqb c "I")%bool = true ->
  strip_sign (trimStart (ws ++ sign_text sg ++ String c s)) =
    (is_minus sg, String c s).
Proof.
  intros Hws Hns Hc. rewrite trimStart_white by exact Hws.
  destruct sg as [[|]|]; cbn [sign_text append is_minus].
  - rewrite trimStart_stop by reflexivity. reflexivity.
  - rewrite trimStart_stop by reflexivity. reflexivity.
  - rewrite trimStart_stop.
    + apply strip_sign_none, Hns.
    + rewrite Hns, orb_false_r.
      destruct (is_decimal_digit c); [reflexivity|]. exact Hc.
Qed.

(** The same for a text in which no number follows: what follows must
    then start with neither white space nor a sign, unless a sign was
    given. *)
Lemma sign_stripped_rest ws sg rest :
  is_white ws = true ->
  (sg = None ->
   first_char (fun c => isWhiteSpace c || is_sign c)%bool rest = false) ->
  strip_sign (trimStart (ws ++ sign_text sg ++ rest)) = (is_minus sg, rest).
Proof.
  intros Hws Hrest. rewrite trimStart_white by exact Hws.
  destruct sg as [[|]|]; cbn [sign_text append is_minus].
  - rewrite trimStart_stop by reflexivity. reflexivity.
  - rewrite trimStart_stop by reflexivity. reflexivity.
  - specialize (Hrest eq_refl). destruct rest as [|c s]; [reflexivity|].
    cbn [first_char] in Hrest. apply orb_false_iff in Hrest as [Hw Hs].
    cbn [trimStart]. rewrite Hw. apply strip_sign_none, Hs.
Qed.

Lemma span_digits_none rest :
  first_char is_decimal_digit rest = false ->
  span_digits 10 rest = ([], rest).
Proof.
  exact (span_digits_uint Decimal.Nil rest).
Qed.

Lemma radix_ten_no_digit (S : string) :
  first_char is_decimal_digit S = false ->
  match S with
  | String "0"%char (String c r) =>
      if (Ascii.eqb c "x" || Ascii.eqb c "X")%bool then (16, r) else (10, S)
  | _ => (10, S)
  end = (10, S).
Proof.
  intros H. destruct S as [|c S]; [reflexivity|]. cbn [first_char] in H.
  destruct c as [[] [] [] [] [] [] [] []]; try reflexivity. discriminate H.
Qed.

Lemma parseInt_value neg m :
  0 <= m ->
  (if m =? 0 then S754_zero neg else of_Z (if neg then - m else m)) =
    decimal_to_number neg m 0.
Proof.
  intros Hm. destruct (m =? 0) eqn:E.
  - apply Z.eqb_eq in E. subst m. reflexivity.
  - apply Z.eqb_neq in E. unfold of_Z. destruct neg.
    + rewrite Z.abs_opp, Z.abs_eq by lia.
      destruct (- m <? 0) eqn:E'; [reflexivity|].
      apply Z.ltb_ge in E'. lia.
    + rewrite Z.abs_eq by lia.
      destruct (m <? 0) eqn:E'; [|reflexivity].
      apply Z.ltb_lt in E'. lia.
Qed.

Lemma digits_value_app R a b :
  digits_value R (a ++ b) =
    digits_value R a * R ^ Z.of_nat (List.length b) + digits_value R b.
Proof.
  unfold digits_value. rewrite fold_left_app.
  generalize (fold_left (fun acc d => acc * R + d) a 0). intros x.
  assert (G : forall l acc0 acc,
            fold_left (fun acc d => acc * R + d) l (acc0 + acc) =
            acc0 * R ^ Z.of_nat (List.length l)
            + fold_left (fun acc d => acc * R + d) l acc).
  { induction l as [|d l IH]; intros acc0 acc.
    - cbn [fold_left List.length]. change (Z.of_nat 0) with 0. lia.
    - cbn [fold_left List.length].
      replace ((acc0 + acc) * R + d) with (acc0 * R + (acc * R + d)) by lia.
      rewrite IH. rewrite Nat2Z.inj_succ, Z.pow_succ_r by lia. lia. }
  replace x with (x + 0) at 1 by lia. apply G.
Qed.

Lemma uint_digits_length u :
  List.length (uint_digits u) = Decimal.nb_digits u.
Proof.
  induction u; simpl; congruence.
Qed.

Lemma digits_value_nonneg u : 0 <= digits_value 10 (uint_digits u).
Proof.
  rewrite digits_value_uint. lia.
Qed.

Lemma parseInt_text ws sg u rest :
  is_white ws = true ->
  u <> Decimal.Nil ->
  first_char is_decimal_digit rest = false ->
  starts_with "0x" (NilEmpty.string_of_uint u ++ rest) = false ->
  starts_with "0X" (NilEmpty.string_of_uint u ++ rest) = false ->
  parseInt (JStr (ws ++ sign_text sg ++ NilEmpty.string_of_uint u ++ rest)) =
    Ok (decimal_to_number (is_minus sg) (Z.of_N (N.of_uint u)) 0).
Proof.
  intros Hws Hu Hrest Hx HX.
  pose proof (span_digits_uint u rest Hrest) as Hspan.
  destruct (string_of_uint_first u Hu) as (c & r & Es & Hc).
  unfold parseInt. cbn [ToString bind].
  rewrite Es in *. cbn [append] in *.
  rewrite (sign_stripped ws sg c (r ++ rest) Hws (digit_not_sign c Hc))
    by now rewrite Hc.
  rewrite (radix_ten _ Hx HX), Hspan. cbn [fst].
  destruct (uint_digits u) eqn:Ed; [now apply uint_digits_nonempty in Ed|].
  rewrite <- Ed, digits_value_uint.
  rewrite parseInt_value by lia. reflexivity.
Qed.

Lemma parseInt_no_digit ws sg rest :
  is_white ws = true ->
  first_char is_decimal_digit rest = false ->
  (sg = None ->
   first_char (fun c => isWhiteSpace c || is_sign c)%bool rest = false) ->
  parseInt (JStr (ws ++ sign_text sg ++ rest)) = Ok NaN.
Proof.
  intros Hws Hd Hrest. unfold parseInt. cbn [ToString bind].
  rewrite (sign_stripped_rest ws sg rest Hws Hrest).
  rewrite (radix_ten_no_digit rest Hd), (span_digits_none rest Hd).
  reflexivity.
Qed.

Lemma append_assoc (a b c : string) : ((a ++ b) ++ c = a ++ (b ++ c))%string.
Proof.
  induction a as [|x a IH]; cbn [append]; [reflexivity|]. now rewrite IH.
Qed.

Lemma first_char_append p a b :
  a <> "" -> first_char p (a ++ b) = first_char p a.
Proof.
  destruct a; [congruence | reflexivity].
Qed.

Lemma exponent_part_none rest :
  starts_exponent rest = false -> exponent_part rest = 0.
Proof.
  destruct rest as [|c r]; [reflexivity|]. unfold starts_exponent, exponent_part.
  intros H.
  destruct (Ascii.eqb c "e" || Ascii.eqb c "E")%bool; [|reflexivity].
  cbn [andb] in H. apply orb_false_iff in H as [Hd Hs].
  destruct r as [|c' r']; [reflexivity|]. cbn [first_char drop] in Hd, Hs.
  destruct (is_sign c') eqn:Es.
  - cbn [andb] in Hs.
    assert (E : exists neg, strip_sign (String c' r') = (neg, r')).
    { destruct c' as [[] [] [] [] [] [] [] []]; try discriminate Es;
        eexists; reflexivity. }
    destruct E as (neg & ->). now rewrite (span_digits_none r' Hs).
  - rewrite (strip_sign_none c' r' Es).
    now rewrite (span_digits_none (String c' r') Hd).
Qed.

Lemma exponent_part_some upper sg ue rest :
  ue <> Decimal.Nil ->
  first_char is_decimal_digit rest = false ->
  exponent_part (exponent_text (Some (upper, sg, ue)) ++ rest) =
    exponent_value (Some (upper, sg, ue)).
Proof.
  intros Hu Hrest.
  pose proof (span_digits_uint ue rest Hrest) as Hspan.
  destruct (string_of_uint_first ue Hu) as (c & r & Es & Hc).
  assert (Hs : strip_sign (sign_text sg ++ NilEmpty.string_of_uint ue ++ rest)
               = (is_minus sg, NilEmpty.string_of_uint ue ++ rest)).
  { rewrite Es. cbn [append].
    destruct sg as [[|]|]; cbn [sign_text append is_minus]; try reflexivity.
    apply strip_sign_none, digit_not_sign, Hc. }
  unfold exponent_text, exponent_value, exponent_part.
  rewrite !append_assoc.
  destruct upper; cbn [append]; cbn [Ascii.eqb Bool.eqb orb];
    rewrite Hs, Hspan; cbn [fst];
    (destruct (uint_digits ue) eqn:Ed; [now apply uint_digits_nonempty in Ed|]);
    rewrite <- Ed, digits_value_uint; reflexivity.
Qed.

Lemma not_Infinity c s :
  (is_decimal_digit c || Ascii.eqb c ".")%bool = true ->
  starts_with "Infinity" (String c s) = false.
Proof.
  intros H. cbn [starts_with].
  destruct c as [[] [] [] [] [] [] [] []]; try discriminate H; reflexivity.
Qed.

Lemma point_not_sign c :
  (is_decimal_digit c || Ascii.eqb c ".")%bool = true -> is_sign c = false.
Proof.
  destruct c as [[] [] [] [] [] [] [] []]; intros H; try discriminate H;
    reflexivity.
Qed.

Lemma exponent_text_no_digit ex rest :
  first_char is_decimal_digit rest = false ->
  first_char is_decimal_digit (exponent_text ex ++ rest) = false.
Proof.
  intros H. destruct ex as [[[[|] sg] ue]|]; [reflexivity | reflexivity | exact H].
Qed.

Lemma tail_no_digit fr ex rest :
  first_char is_decimal_digit rest = false ->
  first_char is_decimal_digit (fraction_text fr ++ exponent_text ex ++ rest)
    = false.
Proof.
  intros H. destruct fr; [reflexivity|]. now apply exponent_text_no_digit.
Qed.

(** The digits of the fraction, and the text after it. *)
Lemma fraction_split fr ex rest :
  first_char is_decimal_digit rest = false ->
  (fr = None -> ex = None ->
   first_char (fun c => Ascii.eqb c ".") rest = false) ->
  match fraction_text fr ++ exponent_text ex ++ rest with
  | String "."%char r => span_digits 10 r
  | _ => ([], fraction_text fr ++ exponent_text ex ++ rest)
  end =
  (match fr with Some uf => uint_digits uf | None => [] end,
   exponent_text ex ++ rest).
Proof.
  intros Hrest Hpoint. destruct fr as [uf|].
  - cbn [fraction_text append].
    apply span_digits_uint. now apply exponent_text_no_digit.
  - cbn [fraction_text append].
    destruct ex as [[[[|] sg] ue]|]; [reflexivity | reflexivity |].
    specialize (Hpoint eq_refl eq_refl). cbn [exponent_text append].
    destruct rest as [|c r]; [reflexivity|]. cbn [first_char] in Hpoint.
    destruct c as [[] [] [] [] [] [] [] []]; try reflexivity.
    discriminate Hpoint.
Qed.

Lemma exponent_part_text ex rest :
  exponent_digits ex <> Decimal.Nil ->
  first_char is_decimal_digit rest = false ->
  (ex = None -> starts_exponent rest = false) ->
  exponent_part (exponent_text ex ++ rest) = exponent_value ex.
Proof.
  intros Hue Hrest Hexp. destruct ex as [[[upper sg] ue]|].
  - apply exponent_part_some; [exact Hue | exact Hrest].
  - cbn [exponent_text append exponent_value].
    apply exponent_part_none. now apply Hexp.
Qed.

Lemma parseFloat_text ws sg ui fr ex rest :
  is_white ws = true ->
  (ui <> Decimal.Nil \/ exists uf, fr = Some uf /\ uf <> Decimal.Nil) ->
  exponent_digits ex <> Decimal.Nil ->
  first_char is_decimal_digit rest = false ->
  (fr = None -> ex = None ->
   first_char (fun c => Ascii.eqb c ".") rest = false) ->
  (ex = None -> starts_exponent rest = false) ->
  parseFloat (JStr (ws ++ sign_text sg ++ NilEmpty.string_of_uint ui
                       ++ fraction_text fr ++ exponent_text ex ++ rest)) =
    Ok (decimal_to_number (is_minus sg)
          (Z.of_N (N.of_uint ui) * 10 ^ fraction_length fr + fraction_value fr)
          (exponent_value ex - fraction_length fr)).
Proof.
  intros Hws Hdigits Hue Hrest Hpoint Hexp.
  set (T := fraction_text fr ++ exponent_text ex ++ rest).
  assert (Hbody : exists c s,
            NilEmpty.string_of_uint ui ++ T = String c s /\
            (is_decimal_digit c || Ascii.eqb c ".")%bool = true).
  { destruct (Decimal.uint_eq_dec ui Decimal.Nil) as [-> | Hui].
    - destruct Hdigits as [H | (uf & -> & _)]; [congruence|].
      cbn. eexists _, _. split; reflexivity.
    - destruct (string_of_uint_first ui Hui) as (c & r & -> & Hc).
      exists c, (r ++ T). split; [reflexivity|]. now rewrite Hc. }
  destruct Hbody as (c & s & Ebody & Hc).
  pose proof (span_digits_uint ui T (tail_no_digit fr ex rest Hrest)) as Hspan.
  unfold parseFloat. cbn [ToString bind].
  rewrite Ebody in *.
  rewrite (sign_stripped ws sg c s Hws (point_not_sign c Hc))
    by (rewrite Hc; reflexivity).
  rewrite (not_Infinity c s Hc), Hspan.
  unfold T. rewrite (fraction_split fr ex rest Hrest Hpoint).
  rewrite (exponent_part_text ex rest Hue Hrest Hexp).
  assert (Hne : (uint_digits ui ++
                 match fr with Some uf => uint_digits uf | None => [] end)%list
                <> []).
  { destruct Hdigits as [H | (uf & -> & H)].
    - apply uint_digits_nonempty in H.
      destruct (uint_digits ui); [congruence | discriminate].
    - apply uint_digits_nonempty in H. intros E.
      apply app_eq_nil in E as [_ E]. contradiction. }
  destruct (uint_digits ui ++ _)%list as [|d ds] eqn:Em; [congruence|].
  rewrite <- Em. f_equal. f_equal.
  - rewrite digits_value_app, digits_value_uint. destruct fr as [uf|].
    + cbn [fraction_length fraction_value].
      now rewrite uint_digits_length, digits_value_uint.
    + reflexivity.
  - destruct fr as [uf|]; cbn [fraction_length].
    + now rewrite uint_digits_length.
    + reflexivity.
Qed.

Lemma parseFloat_no_number ws sg rest :
  is_white ws = true ->
  first_char is_decimal_digit rest = false ->
  starts_fraction rest = false ->
  starts_with "Infinity" rest = false ->
  (sg = None ->
   first_char (fun c => isWhiteSpace c || is_sign c)%bool rest = false) ->
  parseFloat (JStr (ws ++ sign_text sg ++ rest)) = Ok NaN.
Proof.
  intros Hws Hd Hf Hinf Hrest. unfold parseFloat. cbn [ToString bind].
  rewrite (sign_stripped_rest ws sg rest Hws Hrest).
  rewrite Hinf, (span_digits_none rest Hd).
  destruct rest as [|c r]; [reflexivity|].
  destruct (Ascii.eqb c ".") eqn:E.
  - apply Ascii.eqb_eq in E. subst c. cbn [starts_fraction Ascii.eqb Bool.eqb andb] in Hf.
    now rewrite (span_digits_none r Hf).
  - destruct c as [[] [] [] [] [] [] [] []]; try reflexivity. discriminate E.
Qed.

Lemma parseFloat_Infinity ws sg rest :
  is_white ws = true ->
  parseFloat (JStr (ws ++ sign_text sg ++ "Infinity" ++ rest)) =
    Ok (S754_infinity (is_minus sg)).
Proof.
  intros Hws. unfold parseFloat. cbn [ToString bind].
  change ("Infinity" ++ rest) with (String "I" ("nfinity" ++ rest)).
  rewrite (sign_stripped ws sg "I" ("nfinity" ++ rest) Hws eq_refl eq_refl).
  reflexivity.
Qed.

(** C3. [int.read] converts its input to a string, skips leading white
    space, takes an optional sign and reads the longest run of decimal
    digits, ignoring what follows (a text starting with the hexadecimal
    prefix is read in radix 16); the result is the signed value of the
    digits, so ["42abc"] gives 42.  Without a digit at that place, as in
    ["abc"], it fails expecting "integer".  [float.read] does the same
    with the longest decimal literal -- digits, an optional fraction, an
    optional exponent, or [Infinity] -- so ["3.5abc"] gives 3.5 and
    ["12em"] gives 12, and it fails expecting "float" when there is no
    such literal.  The binary64 values below are 42 = 5910974510923776 /
    2^47, -5, 26, 3, 7, 3.5, 1000, -1.5, 12 and 0.5. *)
Theorem numeric_leniency :
  (forall ws sg u rest,
     is_white ws = true ->
     u <> Decimal.Nil ->
     first_char is_decimal_digit rest = false ->
     starts_with "0x" (NilEmpty.string_of_uint u ++ rest) = false ->
     starts_with "0X" (NilEmpty.string_of_uint u ++ rest) = false ->
     read int (JStr (ws ++ sign_text sg ++ NilEmpty.string_of_uint u ++ rest)) =
       Ok (JNum (decimal_to_number (is_minus sg) (Z.of_N (N.of_uint u)) 0))) /\
  (forall ws sg rest,
     is_white ws = true ->
     first_char is_decimal_digit rest = false ->
     (sg = None ->
      first_char (fun c => isWhiteSpace c || is_sign c)%bool rest = false) ->
     read int (JStr (ws ++ sign_text sg ++ rest)) =
       ParseError "integer" (JStr (ws ++ sign_text sg ++ rest))) /\
  (forall ws sg ui fr ex rest,
     is_white ws = true ->
     (ui <> Decimal.Nil \/ exists uf, fr = Some uf /\ uf <> Decimal.Nil) ->
     exponent_digits ex <> Decimal.Nil ->
     first_char is_decimal_digit rest = false ->
     (fr = None -> ex = None ->
      first_char (fun c => Ascii.eqb c ".") rest = false) ->
     (ex = None -> starts_exponent rest = false) ->
     read float (JStr (ws ++ sign_text sg ++ NilEmpty.string_of_uint ui
                          ++ fraction_text fr ++ exponent_text ex ++ rest)) =
       Ok (JNum (decimal_to_number (is_minus sg)
                   (Z.of_N (N.of_uint ui) * 10 ^ fraction_length fr
                    + fraction_value fr)
                   (exponent_value ex - fraction_length fr)))) /\
  (forall ws sg rest,
     is_white ws = true ->
     read float (JStr (ws ++ sign_text sg ++ "Infinity" ++ rest)) =
       Ok (JNum (S754_infinity (is_minus sg)))) /\
  (forall ws sg rest,
     is_white ws = true ->
     first_char is_decimal_digit rest = false ->
     starts_fraction rest = false ->
     starts_with "Infinity" rest = false ->
     (sg = None ->
      first_char (fun c => isWhiteSpace c || is_sign c)%bool rest = false) ->
     read float (JStr (ws ++ sign_text sg ++ rest)) =
       ParseError "float" (JStr (ws ++ sign_text sg ++ rest))) /\
  (read int (JStr "42abc") = Ok (JNum (S754_finite false 5910974510923776 (-47))) /\
   read int (JStr "abc") = ParseError "integer" (JStr "abc") /\
   read int (JStr "-5") = Ok (JNum (S754_finite true 5629499534213120 (-50))) /\
   read int (JStr "  42") = Ok (JNum (S754_finite false 5910974510923776 (-47))) /\
   read int (JStr "0x1A") = Ok (JNum (S754_finite false 7318349394477056 (-48))) /\
   read int (JNum (decimal_to_number false 37 (-1))) =
     Ok (JNum (S754_finite false 6755399441055744 (-51))) /\
   read int (JArr [JNum (of_Z 7); JNum (of_Z 8)]) =
     Ok (JNum (S754_finite false 7881299347898368 (-50))) /\
   read int JNull = ParseError "integer" JNull /\
   read float (JStr "3.5abc") = Ok (JNum (S754_finite false 7881299347898368 (-51))) /\
   read float (JStr "abc") = ParseError "float" (JStr "abc") /\
   read float (JStr "1e3") = Ok (JNum (S754_finite false 8796093022208000 (-43))) /\
   read float (JStr "-1.5") = Ok (JNum (S754_finite true 6755399441055744 (-52))) /\
   read float (JStr "12em") = Ok (JNum (S754_finite false 6755399441055744 (-49))) /\
   read float (JStr ".5") = Ok (JNum (S754_finite false 4503599627370496 (-53))) /\
   read float (JNum (decimal_to_number false 35 (-1))) =
     Ok (JNum (S754_finite false 7881299347898368 (-51)))).
Proof.
  split.
  { intros ws sg u rest Hws Hu Hr Hx HX. unfold int; cbn [read].
    rewrite (parseInt_text ws sg u rest Hws Hu Hr Hx HX). cbn [bind].
    now rewrite decimal_to_number_not_nan. }
  split.
  { intros ws sg rest Hws Hd Hrest. unfold int; cbn [read].
    rewrite (parseInt_no_digit ws sg rest Hws Hd Hrest). reflexivity. }
  split.
  { intros ws sg ui fr ex rest Hws Hdig Hue Hr Hp He.
    unfold float; cbn [read].
    rewrite (parseFloat_text ws sg ui fr ex rest Hws Hdig Hue Hr Hp He).
    cbn [bind]. now rewrite decimal_to_number_not_nan. }
  split.
  { intros ws sg rest Hws. unfold float; cbn [read].
    rewrite (parseFloat_Infinity ws sg rest Hws). reflexivity. }
  split.
  { intros ws sg rest Hws Hd Hf Hi Hrest. unfold float; cbn [read].
    rewrite (parseFloat_no_number ws sg rest Hws Hd Hf Hi Hrest).
    reflexivity. }
  repeat (split; [vm_compute; reflexivity|]). vm_compute; reflexivity.
Qed.

Lemma numeric_leniency_witness :
  read int (JStr (" " ++ sign_text (Some true) ++ "007" ++ " apples")) =
    Ok (JNum (decimal_to_number true 7 0)) /\
  read int (JStr ("" ++ sign_text (Some false) ++ "-5")) =
    ParseError "integer" (JStr "+-5") /\
  read float (JStr ("" ++ sign_text None ++ "12" ++ fraction_text (Some (Decimal.D5 Decimal.Nil))
                       ++ exponent_text (Some (false, Some true, Decimal.D1 Decimal.Nil))
                       ++ "em")) =
    Ok (JNum (decimal_to_number false (12 * 10 ^ 1 + 5) (- 1 - 1))) /\
  read float (JStr ("" ++ sign_text None ++ "Infinity" ++ "x")) =
    Ok (JNum (S754_infinity false)) /\
  read float (JStr ("  " ++ sign_text (Some true) ++ ".e5")) =
    ParseError "float" (JStr "  -.e5").
Proof.
  destruct numeric_leniency as (Hi & Hi' & Hf & Hinf & Hf' & _).
  split; [|split; [|split; [|split]]].
  - apply (Hi " " (Some true)
              (Decimal.D0 (Decimal.D0 (Decimal.D7 Decimal.Nil))) " apples");
      [reflexivity | discriminate | reflexivity ..].
  - apply (Hi' "" (Some false) "-5"); [reflexivity | reflexivity | discriminate].
  - apply (Hf "" None (Decimal.D1 (Decimal.D2 Decimal.Nil))
              (Some (Decimal.D5 Decimal.Nil))
              (Some (false, Some true, Decimal.D1 Decimal.Nil)) "em");
      [reflexivity | left; discriminate | discriminate | reflexivity
      | discriminate | discriminate].
  - apply (Hinf "" None "x"). reflexivity.
  - apply (Hf' "  " (Some true) ".e5");
      [reflexivity | reflexivity | reflexivity | reflexivity | discriminate].
Defined.
(** ** Failures that are not parse errors *)

Lemma Object_keys_nonempty {A} (def : list (string * A)) :
  def <> [] -> Object_keys def <> [].
Proof.
  intros Hne. unfold Object_keys, declared.
  set (own := fold_left _ def []).
  assert (Hown : own <> []).
  { unfold own. destruct def as [|kv def]; [congruence|]. cbn [fold_left].
    assert (G : forall (l acc : list (string * A)), acc <> [] ->
              fold_left (fun props kv => set props (fst kv) (snd kv)) l acc <> []).
    { induction l as [|x l IH]; intros acc Hacc; [exact Hacc|].
      cbn [fold_left]. apply IH. destruct acc as [|[k w] acc]; [congruence|].
      cbn [set]. destruct (String.eqb k (fst x)); discriminate. }
    apply G. discriminate. }
  intros E. apply map_eq_nil in E.
  pose proof (enumerate_perm own) as Hp. rewrite E in Hp.
  apply Permutation_nil in Hp. contradiction.
Qed.

Lemma obj_read_not_object (def : Def) (o : JsVal) :
  def <> [] ->
  (instanceof_Object o && negb (instanceof_Array o))%bool = false ->
  read (obj def) o = ParseError "an object" o.
Proof.
  intros Hne Ho. unfold obj; cbn [read].
  destruct (Object_keys def) as [|k ks] eqn:E.
  - now apply Object_keys_nonempty in E.
  - cbn [obj_read_loop]. now rewrite Ho.
Qed.

(** C2. The claim fails on the code.  [variant(...).read] takes [o.type]
    before any check, so on [null] and on [undefined] it throws the
    run-time's [TypeError], not the library's [ParseError] -- whatever the
    arguments of [variant].  The structural readers beside it check their
    input first and answer the same inputs with a [ParseError].  (A second
    path to a [TypeError]: [int.read] and [float.read] convert their input
    to a string, which throws on an object whose own [toString] property
    is not a function.) *)
Theorem variant_read_of_null_throws (args : list Arg) :
  read (variant args) JNull = TypeError /\
  read (variant args) JUndefined = TypeError /\
  (forall k d def,
     read (obj ((k, d) :: def)) JNull = ParseError "an object" JNull) /\
  (forall s, read (array s) JNull = ParseError "array" JNull) /\
  (forall def, read (tuple def) JNull = ParseError "an array" JNull) /\
  read int (JObj [("toString", JStr "x")]) = TypeError /\
  read float (JObj [("toString", JStr "x")]) = TypeError.
Proof.
  split; [reflexivity|].
  split; [reflexivity|].
  split; [intros k d def; apply obj_read_not_object; [discriminate | reflexivity]|].
  split; [intros s; reflexivity|].
  split; [intros def; reflexivity|].
  split; reflexivity.
Qed.

(** ** Round trip *)


(** *** Leaves *)

Ltac good_split := unfold Good; split; [|split; [|split]].

Lemma Good_weaken s (P Q : JsVal -> Prop) :
  (forall t, Q t -> P t) -> Good s P -> Good s Q.
Proof.
  intros HPQ (Hrt & Ha & Hb & Hd). good_split; auto.
  intros v t Hr. destruct (Hrt v t Hr) as (v2 & Hw & Hback).
  exists v2. auto.
Qed.

Lemma Good_str : Good str (fun _ => True).
Proof.
  good_split.
  - intros v t Hr. destruct v; try discriminate Hr. injection Hr as <-.
    eexists. split; reflexivity.
  - intros v Hr. destruct v; discriminate Hr.
  - intros t v2 Hw Ht. injection Hw as <-. exact Ht.
  - intros v t _. eexists; reflexivity.
Qed.

Lemma Good_bool : Good bool (fun _ => True).
Proof.
  good_split.
  - intros v t Hr. destruct v; try discriminate Hr. injection Hr as <-.
    eexists. split; reflexivity.
  - intros v Hr. destruct v; discriminate Hr.
  - intros t v2 Hw Ht. injection Hw as <-. exact Ht.
  - intros v t _. eexists; reflexivity.
Qed.

Lemma Good_raw : Good raw (fun _ => True).
Proof.
  good_split.
  - intros v t Hr. injection Hr as <-. eexists. split; reflexivity.
  - intros v Hr. injection Hr as ->. reflexivity.
  - intros t v2 Hw Ht. injection Hw as <-. exact Ht.
  - intros v t _. eexists; reflexivity.
Qed.

Lemma Good_nothing : Good nothing (fun _ => True).
Proof.
  good_split.
  - intros v t Hr. injection Hr as <-. eexists. split; reflexivity.
  - intros v Hr. discriminate Hr.
  - intros t v2 Hw Ht. injection Hw as <-. reflexivity.
  - intros v t _. eexists; reflexivity.
Qed.

Lemma read_int_number v t : read int v = Ok t -> exists n, t = JNum n.
Proof.
  unfold int; cbn [read]. intros H.
  apply bind_Ok in H as (n & _ & H).
  destruct (isNaN n); [discriminate H|]. injection H as <-. eauto.
Qed.

Lemma read_float_number v t : read float v = Ok t -> exists n, t = JNum n.
Proof.
  unfold float; cbn [read]. intros H.
  apply bind_Ok in H as (n & _ & H).
  destruct (isNaN n); [discriminate H|]. injection H as <-. eauto.
Qed.

Lemma Good_int : Good int (fun t => read int t = Ok t).
Proof.
  good_split.
  - intros v t Hr. exists t. split; [reflexivity | auto].
  - intros v Hr. apply read_int_number in Hr as (n & Hn). discriminate Hn.
  - intros t v2 Hw Ht. injection Hw as <-. exact Ht.
  - intros v t _. eexists; reflexivity.
Qed.

Lemma Good_float : Good float (fun t => read float t = Ok t).
Proof.
  good_split.
  - intros v t Hr. exists t. split; [reflexivity | auto].
  - intros v Hr. apply read_float_number in Hr as (n & Hn). discriminate Hn.
  - intros t v2 Hw Ht. injection Hw as <-. exact Ht.
  - intros v t _. eexists; reflexivity.
Qed.

Lemma indexOf_not_string keys v :
  (forall s, v <> JStr s) -> indexOf strict_eq_string keys v = -1.
Proof.
  intros Hv. induction keys as [|k keys IH]; [reflexivity|].
  cbn [indexOf]. rewrite IH.
  destruct v; try reflexivity. exfalso. eapply Hv. reflexivity.
Qed.

Lemma read_oneOf_string def v t :
  read (oneOf def) v = Ok t -> t = v /\ exists s, v = JStr s.
Proof.
  unfold oneOf; cbn [read]. intros H.
  destruct (negb (_ =? -1)) eqn:E; [|discriminate H].
  injection H as <-. split; [reflexivity|].
  destruct v; try (rewrite indexOf_not_string in E by discriminate;
                   discriminate E).
  eauto.
Qed.

Lemma Good_oneOf def : Good (oneOf def) (fun _ => True).
Proof.
  good_split.
  - intros v t Hr. pose proof (read_oneOf_string def v t Hr) as (-> & _).
    exists v. split; [reflexivity | auto].
  - intros v Hr. apply read_oneOf_string in Hr as (E & s & ->). discriminate E.
  - intros t v2 Hw Ht. injection Hw as <-. exact Ht.
  - intros v t _. eexists; reflexivity.
Qed.

(** *** Optional and nullable *)

Lemma eq_null_cases v : eq_null v = true -> v = JUndefined \/ v = JNull.
Proof.
  destruct v; try discriminate; auto.
Qed.

Lemma Good_optional s P :
  Good s P -> Good (optional s) (fun t => eq_null t = true \/ P t).
Proof.
  intros (Hrt & Ha & Hb & Hd). good_split.
  - intros v t Hr. unfold optional in *; cbn [read write] in *.
    destruct (eq_null v) eqn:Ev.
    + injection Hr as <-. exists JNull. split; reflexivity.
    + destruct (eq_null t) eqn:Et.
      * apply eq_null_cases in Et as [-> | ->].
        -- exists JNull. split; reflexivity.
        -- apply Ha in Hr. congruence.
      * destruct (Hrt v t Hr) as (v2 & Hw & Hback). exists v2.
        split; [exact Hw|]. intros [HP | HP]; [discriminate HP|].
        rewrite (Hb t v2 Hw Et). auto.
  - intros v Hr. unfold optional in Hr; cbn [read] in Hr.
    destruct (eq_null v) eqn:Ev; [reflexivity|]. apply Ha in Hr. congruence.
  - intros t v2 Hw Ht. unfold optional in Hw; cbn [write] in Hw.
    rewrite Ht in Hw. eauto.
  - intros v t Hr. unfold optional in *; cbn [read write] in *.
    destruct (eq_null v) eqn:Ev; [eexists; reflexivity|]. eauto.
Qed.

Lemma Good_nullable s P :
  Good s P -> UndefinedFromNull s ->
  Good (nullable s) (fun t => eq_null t = true \/ P t).
Proof.
  intros (Hrt & Ha & Hb & Hd) Hc. good_split.
  - intros v t Hr. unfold nullable in *; cbn [read write] in *.
    destruct (eq_null v) eqn:Ev.
    + injection Hr as <-. exists JNull. split; reflexivity.
    + destruct (eq_null t) eqn:Et.
      * apply eq_null_cases in Et as [-> | ->].
        -- apply Hc in Hr. congruence.
        -- apply Ha in Hr. congruence.
      * destruct (Hrt v t Hr) as (v2 & Hw & Hback). exists v2.
        split; [exact Hw|]. intros [HP | HP]; [discriminate HP|].
        rewrite (Hb t v2 Hw Et). auto.
  - intros v Hr. unfold nullable in Hr; cbn [read] in Hr.
    destruct (eq_null v) eqn:Ev; [reflexivity|]. apply Ha in Hr. congruence.
  - intros t v2 Hw Ht. unfold nullable in Hw; cbn [write] in Hw.
    rewrite Ht in Hw. eauto.
  - intros v t Hr. unfold nullable in *; cbn [read write] in *.
    destruct (eq_null v) eqn:Ev; [eexists; reflexivity|]. eauto.
Qed.

(** *** Arrays and tuples *)

Lemma mapM_round_trip s P :
  RoundTrips s P ->
  forall elems ts, mapM (read s) elems = Ok ts ->
    exists ws, mapM (write s) ts = Ok ws /\
               (Forall P ts -> mapM (read s) ws = Ok ts).
Proof.
  intros Hrt. induction elems as [|e elems IH]; intros ts H.
  - injection H as <-. exists []. split; reflexivity.
  - cbn [mapM] in H. apply bind_Ok in H as (t & Ht & H).
    apply bind_Ok in H as (ts' & Hts & H). injection H as <-.
    destruct (Hrt e t Ht) as (w & Hw & Hback).
    destruct (IH ts' Hts) as (ws & Hws & Hbacks).
    exists (w :: ws). cbn [mapM]. rewrite Hw, Hws. split; [reflexivity|].
    intros HP. inversion HP as [|? ? HPt HPts]; subst.
    rewrite (Hback HPt), (Hbacks HPts). reflexivity.
Qed.

Lemma mapM_writes_inputs s :
  WritesInputs s ->
  forall elems ts, mapM (read s) elems = Ok ts ->
    exists ws, mapM (write s) elems = Ok ws.
Proof.
  intros Hd. induction elems as [|e elems IH]; intros ts H.
  - exists []. reflexivity.
  - cbn [mapM] in H. apply bind_Ok in H as (t & Ht & H).
    apply bind_Ok in H as (ts' & Hts & H).
    destruct (Hd e t Ht) as (w & Hw). destruct (IH ts' Hts) as (ws & Hws).
    exists (w :: ws). cbn [mapM]. now rewrite Hw, Hws.
Qed.

Lemma read_array_shape s v t :
  read (array s) v = Ok t ->
  exists elems ts, v = JArr elems /\ t = JArr ts /\
                   mapM (read s) elems = Ok ts.
Proof.
  unfold array; cbn [read]. intros H. destruct v; try discriminate H.
  apply bind_Ok in H as (ts & Hts & H). injection H as <-. eauto.
Qed.

Lemma write_array_shape s t v :
  write (array s) t = Ok v -> exists ws, v = JArr ws.
Proof.
  unfold array; cbn [write]. intros H. destruct t; try discriminate H.
  apply bind_Ok in H as (ws & _ & H). injection H as <-. eauto.
Qed.

Lemma Good_array s P :
  Good s P ->
  Good (array s) (fun t => match t with JArr ts => Forall P ts | _ => True end).
Proof.
  intros (Hrt & Ha & Hb & Hd). good_split.
  - intros v t Hr. apply read_array_shape in Hr as (elems & ts & -> & -> & Hts).
    destruct (mapM_round_trip s P Hrt elems ts Hts) as (ws & Hws & Hback).
    exists (JArr ws). unfold array; cbn [read write]. rewrite Hws.
    split; [reflexivity|]. intros HP. now rewrite (Hback HP).
  - intros v Hr. apply read_array_shape in Hr as (? & ? & _ & E & _).
    discriminate E.
  - intros t v2 Hw _. apply write_array_shape in Hw as (ws & ->). reflexivity.
  - intros v t Hr. apply read_array_shape in Hr as (elems & ts & -> & _ & Hts).
    destruct (mapM_writes_inputs s Hd elems ts Hts) as (ws & Hws).
    exists (JArr ws). unfold array; cbn [write]. now rewrite Hws.
Qed.

Lemma positions_length n elems : List.length (positions n elems) = n.
Proof.
  revert elems. induction n as [|n IH]; intros [|e es]; simpl; auto.
Qed.

Lemma positions_id n elems : List.length elems = n -> positions n elems = elems.
Proof.
  revert elems. induction n as [|n IH]; intros [|e es] H; simpl in *;
    try discriminate; [reflexivity|]. f_equal. apply IH. lia.
Qed.

Lemma zip_round_trip ds Ps :
  Forall2 Good ds Ps ->
  forall xs ts,
    mapM (fun p => read (fst p) (snd p)) (combine ds xs) = Ok ts ->
    List.length xs = List.length ds ->
    exists ws,
      mapM (fun p => write (fst p) (snd p)) (combine ds ts) = Ok ws /\
      List.length ts = List.length ds /\
      List.length ws = List.length ds /\
      (Forall (fun pt => fst pt (snd pt)) (combine Ps ts) ->
       mapM (fun p => read (fst p) (snd p)) (combine ds ws) = Ok ts).
Proof.
  induction 1 as [|d P ds Ps (Hrt & _) _ IH]; intros xs ts H Hlen.
  - injection H as <-. exists []. repeat split; reflexivity.
  - destruct xs as [|x xs]; [discriminate Hlen|].
    cbn [combine mapM fst snd] in H. apply bind_Ok in H as (t & Ht & H).
    apply bind_Ok in H as (ts' & Hts & H). injection H as <-.
    destruct (Hrt x t Ht) as (w & Hw & Hback).
    destruct (IH xs ts' Hts) as (ws & Hws & Hl1 & Hl2 & Hbacks);
      [simpl in Hlen; lia|].
    exists (w :: ws). cbn [combine mapM fst snd List.length].
    rewrite Hw, Hws. repeat split; try (cbn [bind]; f_equal; assumption).
    intros HP. inversion HP as [|? ? HPt HPts]; subst. cbn [fst snd] in HPt.
    rewrite (Hback HPt), (Hbacks HPts). reflexivity.
Qed.

Lemma zip_writes_inputs ds Ps :
  Forall2 Good ds Ps ->
  forall xs ts,
    mapM (fun p => read (fst p) (snd p)) (combine ds xs) = Ok ts ->
    exists ws, mapM (fun p => write (fst p) (snd p)) (combine ds xs) = Ok ws.
Proof.
  induction 1 as [|d P ds Ps (_ & _ & _ & Hd) _ IH]; intros xs ts H.
  - exists []. reflexivity.
  - destruct xs as [|x xs]; [exists []; reflexivity|].
    cbn [combine mapM fst snd] in H. apply bind_Ok in H as (t & Ht & H).
    apply bind_Ok in H as (ts' & Hts & H).
    destruct (Hd x t Ht) as (w & Hw). destruct (IH xs ts' Hts) as (ws & Hws).
    exists (w :: ws). cbn [combine mapM fst snd]. now rewrite Hw, Hws.
Qed.

Lemma read_tuple_shape ds v t :
  read (tuple ds) v = Ok t ->
  exists elems ts, v = JArr elems /\ t = JArr ts /\
    mapM (fun p => read (fst p) (snd p))
         (combine ds (positions (List.length ds) elems)) = Ok ts.
Proof.
  unfold tuple; cbn [read]. intros H. destruct v; try discriminate H.
  cbn [instanceof_Array] in H. rewrite (mapMi_positions read) in H.
  apply bind_Ok in H as (ts & Hts & H). injection H as <-. eauto.
Qed.

Lemma write_tuple_array ds elems :
  write (tuple ds) (JArr elems) =
    (l <- mapM (fun p => write (fst p) (snd p))
               (combine ds (positions (List.length ds) elems)) ;;
     Ok (JArr l)).
Proof.
  unfold tuple; cbn [write]. now rewrite (mapMi_positions write).
Qed.

Lemma read_tuple_array ds elems :
  read (tuple ds) (JArr elems) =
    (l <- mapM (fun p => read (fst p) (snd p))
               (combine ds (positions (List.length ds) elems)) ;;
     Ok (JArr l)).
Proof.
  unfold tuple; cbn [read instanceof_Array]. now rewrite (mapMi_positions read).
Qed.

Lemma Good_tuple ds Ps :
  Forall2 Good ds Ps ->
  Good (tuple ds)
       (fun t => match t with
                 | JArr ts => Forall (fun pt => fst pt (snd pt)) (combine Ps ts)
                 | _ => True
                 end).
Proof.
  intros HG. good_split.
  - intros v t Hr. apply read_tuple_shape in Hr as (elems & ts & -> & -> & Hts).
    destruct (zip_round_trip ds Ps HG _ ts Hts (positions_length _ _))
      as (ws & Hws & Hl1 & Hl2 & Hback).
    exists (JArr ws). rewrite write_tuple_array, read_tuple_array.
    rewrite (positions_id _ ts Hl1), (positions_id _ ws Hl2), Hws.
    split; [reflexivity|]. intros HP. now rewrite (Hback HP).
  - intros v Hr. apply read_tuple_shape in Hr as (? & ? & _ & E & _).
    discriminate E.
  - intros t v2 Hw _. unfold tuple in Hw; cbn [write] in Hw.
    apply bind_Ok in Hw as (l & _ & Hw). injection Hw as <-. reflexivity.
  - intros v t Hr. apply read_tuple_shape in Hr as (elems & ts & -> & _ & Hts).
    destruct (zip_writes_inputs ds Ps HG _ ts Hts) as (ws & Hws).
    exists (JArr ws). rewrite write_tuple_array. now rewrite Hws.
Qed.

(** *** Objects *)

Lemma mapM_total {A B} (f : A -> Outcome B) (l : list A) :
  (forall a, In a l -> exists b, f a = Ok b) -> exists r, mapM f l = Ok r.
Proof.
  induction l as [|a l IH]; intros H; [exists []; reflexivity|].
  destruct (H a) as (b & Hb); [left; reflexivity|].
  destruct IH as (r & Hr); [intros x Hx; apply H; right; exact Hx|].
  exists (b :: r). cbn [mapM]. now rewrite Hb, Hr.
Qed.

Lemma bind_assoc {A B C} (c : Outcome A) (f : A -> Outcome B)
  (k : B -> Outcome C) :
  (x <- c ;; v <- f x ;; k v) = (v <- (x <- c ;; f x) ;; k v).
Proof.
  destruct c; reflexivity.
Qed.

(** A loop that fills one property per declared name succeeds exactly when
    each property can be computed; the object built holds the declared
    names in order, each with its computed value. *)
Lemma mapM_fields_Ok {X} (h : string * X -> Outcome JsVal)
  (E : list (string * X)) :
  NoDup (map fst E) ->
  forall l,
    mapM (fun kd => v <- h kd ;; Ok (fst kd, v)) E = Ok l <->
    map fst l = map fst E /\
    forall kd, In kd E -> h kd = Ok (field l (fst kd)).
Proof.
  induction E as [|[k d] E IH]; intros Hnd l.
  - cbn [mapM map]. split.
    + intros H. injection H as <-. split; [reflexivity | intros ? []].
    + intros [H _]. destruct l; [reflexivity | discriminate H].
  - inversion Hnd as [|? ? Hnot Hnd']; subst. cbn [mapM fst map]. split.
    + intros H. apply bind_Ok in H as (kv & Hkv & H).
      apply bind_Ok in Hkv as (v & Hv & Hkv). injection Hkv as <-.
      apply bind_Ok in H as (l' & Hl' & H). injection H as <-.
      apply (IH Hnd') in Hl' as (Hk & Hf).
      split; [cbn [map fst]; now rewrite Hk|].
      intros kd [<- | Hin].
      * unfold field. cbn [fst lookup]. rewrite String.eqb_refl. exact Hv.
      * unfold field. cbn [lookup].
        destruct (String.eqb k (fst kd)) eqn:E'.
        -- apply String.eqb_eq in E'. subst k. exfalso. apply Hnot.
           apply in_map. exact Hin.
        -- apply Hf. exact Hin.
    + intros [Hk Hf]. destruct l as [|[k' v] l']; [discriminate Hk|].
      cbn [map fst] in Hk. injection Hk as -> Hk.
      rewrite (Hf (k, d)) by (left; reflexivity).
      unfold field at 1. cbn [fst lookup]. rewrite String.eqb_refl.
      cbn [bind or_undefined].
      rewrite (proj2 (IH Hnd' l')); [reflexivity|].
      split; [exact Hk|]. intros kd Hin.
      rewrite (Hf kd) by (right; exact Hin).
      unfold field. cbn [lookup].
      destruct (String.eqb k (fst kd)) eqn:E'; [|reflexivity].
      apply String.eqb_eq in E'. subst k. exfalso. apply Hnot.
      apply in_map. exact Hin.
Qed.

Lemma get_own l k : In k (map fst l) -> get (JObj l) k = Ok (field l k).
Proof.
  intros Hin. cbn [get]. unfold field.
  destruct (lookup k l) eqn:E; [reflexivity|].
  apply lookup_None in E. contradiction.
Qed.

(** The round trip of the fields.  [g] gives the properties of the input,
    [gt] those of the value written and [g2] those of the value read
    again; a property is either the one the first reading produced, or the
    one of the input itself. *)
Lemma fields_round_trip {X} (G : X -> SafeSerializer)
  (R : X -> JsVal -> Prop) (E : list (string * X))
  (g gt : string -> Outcome JsVal) l :
  NoDup (map fst E) ->
  (forall kd, In kd E -> Good (G (snd kd)) (R (snd kd))) ->
  mapM (fun kd => v <- (x <- g (fst kd) ;; read (G (snd kd)) x) ;;
                  Ok (fst kd, v)) E = Ok l ->
  (forall kd, In kd E ->
     gt (fst kd) = Ok (field l (fst kd)) \/ gt (fst kd) = g (fst kd)) ->
  exists lw,
    mapM (fun kd => v <- (x <- gt (fst kd) ;; write (G (snd kd)) x) ;;
                    Ok (fst kd, v)) E = Ok lw /\
    map fst lw = map fst E /\
    forall g2,
      (forall kd, In kd E ->
         (gt (fst kd) = Ok (field l (fst kd)) /\
          g2 (fst kd) = Ok (field lw (fst kd)) /\
          R (snd kd) (field l (fst kd))) \/
         g2 (fst kd) = g (fst kd)) ->
      mapM (fun kd => v <- (x <- g2 (fst kd) ;; read (G (snd kd)) x) ;;
                      Ok (fst kd, v)) E = Ok l.
Proof.
  intros Hnd HG Hr Hgt.
  apply (mapM_fields_Ok _ E Hnd) in Hr as (Hkl & Hf).
  assert (Hw : forall kd, In kd E ->
            exists b, (v <- (x <- gt (fst kd) ;; write (G (snd kd)) x) ;;
                       Ok (fst kd, v)) = Ok b).
  { intros kd Hin. pose proof (Hf kd Hin) as Hfk.
    apply bind_Ok in Hfk as (x & Hx & Hrx).
    destruct (HG kd Hin) as (Hrt & _ & _ & Hd).
    destruct (Hgt kd Hin) as [E1 | E1]; rewrite E1.
    - cbn [bind]. destruct (Hrt x _ Hrx) as (w & Hwx & _). rewrite Hwx.
      eexists; reflexivity.
    - rewrite Hx. cbn [bind]. destruct (Hd x _ Hrx) as (w & Hwx). rewrite Hwx.
      eexists; reflexivity. }
  destruct (mapM_total _ E Hw) as (lw & Hlw). exists lw.
  split; [exact Hlw|].
  apply (mapM_fields_Ok _ E Hnd) in Hlw as (Hkw & Hfw).
  split; [exact Hkw|].
  intros g2 Hg2. apply (mapM_fields_Ok _ E Hnd). split; [exact Hkl|].
  intros kd Hin. destruct (Hg2 kd Hin) as [(E1 & E2 & HR) | E2]; rewrite E2.
  - cbn [bind]. pose proof (Hfw kd Hin) as Hfwk. rewrite E1 in Hfwk.
    cbn [bind] in Hfwk. pose proof (Hf kd Hin) as Hfk.
    apply bind_Ok in Hfk as (x & Hx & Hrx).
    destruct (HG kd Hin) as (Hrt & _).
    destruct (Hrt x _ Hrx) as (w & Hwx & Hback).
    rewrite Hwx in Hfwk. injection Hfwk as <-. apply Hback, HR.
  - exact (Hf kd Hin).
Qed.

(** The properties are enumerated in the same order whatever their
    values. *)
Lemma insert_by_index_map {A B} (f : A -> B) kv l :
  insert_by_index (on_snd f kv) (map (on_snd f) l) =
    map (on_snd f) (insert_by_index kv l).
Proof.
  induction l as [|kv' l IH]; [reflexivity|].
  cbn [map insert_by_index]. destruct kv as [k a], kv' as [k' a'].
  cbn [on_snd fst].
  destruct (index_of_key k <=? index_of_key k')%N; [reflexivity|].
  cbn [map on_snd]. f_equal. exact IH.
Qed.

Lemma filter_keys_map {A B} (f : A -> B) (p : string -> Datatypes.bool) l :
  filter (fun kv => p (fst kv)) (map (on_snd f) l) =
    map (on_snd f) (filter (fun kv => p (fst kv)) l).
Proof.
  induction l as [|[k a] l IH]; [reflexivity|].
  cbn [map filter on_snd fst]. destruct (p k); cbn [map on_snd]; now rewrite IH.
Qed.

Lemma enumerate_map {A B} (f : A -> B) (l : list (string * A)) :
  enumerate (map (on_snd f) l) = map (on_snd f) (enumerate l).
Proof.
  unfold enumerate. rewrite map_app.
  rewrite (filter_keys_map f is_array_index).
  rewrite (filter_keys_map f (fun k => negb (is_array_index k))).
  f_equal.
  induction (filter (fun kv => is_array_index (fst kv)) l) as [|kv r IH];
    [reflexivity|].
  cbn [map fold_right]. rewrite IH. apply insert_by_index_map.
Qed.

Lemma keys_on_snd {A B} (f : A -> B) (l : list (string * A)) :
  map fst (map (on_snd f) l) = map fst l.
Proof.
  induction l as [|[k a] l IH]; [reflexivity|]. cbn [map on_snd fst].
  now rewrite IH.
Qed.

Lemma distinct_NoDup keys : distinct keys = true -> NoDup keys.
Proof.
  induction keys as [|k keys IH]; cbn [distinct]; intros H; [constructor|].
  apply andb_true_iff in H as [H1 H2]. constructor; [|apply IH; exact H2].
  intros Hin. apply negb_true_iff in H1.
  assert (E : existsb (String.eqb k) keys = true).
  { apply existsb_exists. exists k. split; [exact Hin | apply String.eqb_refl]. }
  congruence.
Qed.

Lemma is_in_false names key : is_in names key = false -> ~ In key names.
Proof.
  unfold is_in. intros H Hin.
  assert (E : existsb (String.eqb key) names = true).
  { apply existsb_exists. exists key. split; [exact Hin | apply String.eqb_refl]. }
  congruence.
Qed.

(** Reading and writing with [obj] or [partial_obj] over a schema, field
    by field. *)
Lemma read_fields_schema wrap (def : list (string * Schema)) props :
  NoDup (map fst def) ->
  ~ In "__proto__" (map fst def) ->
  obj_read_loop wrap (map (on_snd serializer) def) (JObj props)
                (Object_keys (map (on_snd serializer) def)) [] =
    (l <- mapM (fun kd => v <- (x <- get (JObj props) (fst kd) ;;
                                read (wrap (serializer (snd kd))) x) ;;
                          Ok (fst kd, v)) (enumerate def) ;;
     Ok (JObj l)).
Proof.
  intros Hnd Hproto.
  rewrite obj_read_fields by (rewrite keys_on_snd; assumption).
  rewrite enumerate_map, mapM_map. f_equal.
  apply mapM_ext_in. intros [k d] _. cbn [on_snd fst snd].
  apply bind_assoc.
Qed.

Lemma write_fields_schema wrap (def : list (string * Schema)) r :
  NoDup (map fst def) ->
  ~ In "__proto__" (map fst def) ->
  obj_write_loop wrap (map (on_snd serializer) def) r
                 (Object_keys (map (on_snd serializer) def)) [] =
    (l <- mapM (fun kd => v <- (x <- get r (fst kd) ;;
                                write (wrap (serializer (snd kd))) x) ;;
                          Ok (fst kd, v)) (enumerate def) ;;
     Ok (JObj l)).
Proof.
  intros Hnd Hproto.
  rewrite obj_write_fields by (rewrite keys_on_snd; assumption).
  rewrite enumerate_map, mapM_map. f_equal.
  apply mapM_ext_in. intros [k d] _. cbn [on_snd fst snd].
  apply bind_assoc.
Qed.

Lemma obj_read_loop_shape wrap def o keys :
  forall out t, obj_read_loop wrap def o keys out = Ok t -> exists l, t = JObj l.
Proof.
  induction keys as [|k keys IH]; intros out t H.
  - injection H as <-. eauto.
  - cbn [obj_read_loop] in H.
    destruct (instanceof_Object o && negb (instanceof_Array o))%bool;
      [|discriminate H].
    apply bind_Ok in H as (d & _ & H). apply bind_Ok in H as (x & _ & H).
    apply bind_Ok in H as (v & _ & H). apply bind_Ok in H as (out' & _ & H).
    eapply IH, H.
Qed.

Lemma obj_write_loop_shape wrap def r keys :
  forall out w, obj_write_loop wrap def r keys out = Ok w -> exists l, w = JObj l.
Proof.
  induction keys as [|k keys IH]; intros out w H.
  - injection H as <-. eauto.
  - cbn [obj_write_loop] in H.
    apply bind_Ok in H as (d & _ & H). apply bind_Ok in H as (x & _ & H).
    apply bind_Ok in H as (v & _ & H). apply bind_Ok in H as (out' & _ & H).
    eapply IH, H.
Qed.

Lemma obj_read_loop_not_object wrap def o keys t :
  (forall props, o <> JObj props) ->
  obj_read_loop wrap def o keys [] = Ok t -> keys = [] /\ t = JObj [].
Proof.
  intros Ho H. destruct keys as [|k keys].
  - injection H as <-. auto.
  - cbn [obj_read_loop] in H.
    destruct o; try discriminate H. exfalso. eapply Ho. reflexivity.
Qed.

Lemma get_set_same l key v : get (JObj (set l key v)) key = Ok v.
Proof.
  cbn [get]. now rewrite lookup_set_same.
Qed.

Lemma get_set_other l key v k :
  k <> key -> get (JObj (set l key v)) k = get (JObj l) k.
Proof.
  intros Hk. cbn [get]. now rewrite lookup_set_other.
Qed.

Lemma field_set_other l key v k :
  k <> key -> field (set l key v) k = field l k.
Proof.
  intros Hk. unfold field. now rewrite lookup_set_other.
Qed.

(** [obj] and [partial_obj] over a schema whose fields round trip: [wrap]
    is the identity for [obj] and [optional] for [partial_obj]. *)
Lemma fields_Good wrap (Rw : Schema -> JsVal -> Prop)
  (def : list (string * Schema)) (s : SafeSerializer) :
  (forall o, read s o =
     obj_read_loop wrap (map (on_snd serializer) def) o
                   (Object_keys (map (on_snd serializer) def)) []) ->
  (forall r, write s r =
     obj_write_loop wrap (map (on_snd serializer) def) r
                    (Object_keys (map (on_snd serializer) def)) []) ->
  NoDup (map fst def) ->
  ~ In "__proto__" (map fst def) ->
  (forall kd, In kd def -> Good (wrap (serializer (snd kd))) (Rw (snd kd))) ->
  Good s (fun t => forall kd, In kd def -> Rw (snd kd) (field_of t (fst kd))) /\
  RoundTripsUnderType s
    (fun t => forall kd, In kd def -> Rw (snd kd) (field_of t (fst kd))).
Proof.
  intros Hread Hwrite Hnd Hproto HG.
  assert (HndE : NoDup (map fst (enumerate def)))
    by (apply enumerate_keys_distinct, Hnd).
  assert (HinE : forall kd, In kd (enumerate def) -> In kd def).
  { intros kd. apply Permutation_in, enumerate_perm. }
  assert (HGE : forall kd, In kd (enumerate def) ->
                  Good (wrap (serializer (snd kd))) (Rw (snd kd))).
  { intros kd Hin. apply HG, HinE, Hin. }
  assert (Hother : forall v t,
            (forall props, v <> JObj props) -> read s v = Ok t ->
            Object_keys (map (on_snd serializer) def) = [] /\ t = JObj []).
  { intros v t Hv Hr. rewrite Hread in Hr.
    eapply obj_read_loop_not_object; eassumption. }
  split; [good_split|].
  - intros v t Hr.
    assert (Hv : (forall props, v <> JObj props) \/ exists props, v = JObj props).
    { destruct v; try (left; discriminate). right. eauto. }
    destruct Hv as [Hv | (props & ->)].
    + destruct (Hother v t Hv Hr) as (Hk & ->). exists (JObj []).
      rewrite Hwrite, Hread, Hk. split; reflexivity.
    + rewrite Hread, read_fields_schema in Hr by assumption.
      apply bind_Ok in Hr as (l & Hl & Hr). injection Hr as <-.
      pose proof (proj1 (mapM_fields_Ok _ _ HndE l) Hl) as (Hkl & _).
      destruct (fields_round_trip (fun d => wrap (serializer d)) Rw
                  (enumerate def) (get (JObj props)) (get (JObj l)) l
                  HndE HGE Hl) as (lw & Hlw & Hkw & Hback).
      { intros kd Hin. left. apply get_own. rewrite Hkl.
        apply in_map, Hin. }
      exists (JObj lw). rewrite Hwrite, write_fields_schema by assumption.
      cbv beta in Hlw. rewrite Hlw. split; [reflexivity|]. intros HP.
      rewrite Hread, read_fields_schema by assumption.
      specialize (Hback (get (JObj lw))). cbv beta in Hback.
      rewrite Hback; [reflexivity|].
      intros kd Hin. left. split; [|split].
      * apply get_own. rewrite Hkl. apply in_map, Hin.
      * apply get_own. rewrite Hkw. apply in_map, Hin.
      * apply (HP kd), HinE, Hin.
  - intros v Hr. rewrite Hread in Hr.
    apply obj_read_loop_shape in Hr as (l & Hl). discriminate Hl.
  - intros t v2 Hw _. rewrite Hwrite in Hw.
    apply obj_write_loop_shape in Hw as (l & ->). reflexivity.
  - intros v t Hr.
    assert (Hv : (forall props, v <> JObj props) \/ exists props, v = JObj props).
    { destruct v; try (left; discriminate). right. eauto. }
    destruct Hv as [Hv | (props & ->)].
    + destruct (Hother v t Hv Hr) as (Hk & _). exists (JObj []).
      rewrite Hwrite, Hk. reflexivity.
    + rewrite Hread, read_fields_schema in Hr by assumption.
      apply bind_Ok in Hr as (l & Hl & Hr).
      destruct (fields_round_trip (fun d => wrap (serializer d)) Rw
                  (enumerate def) (get (JObj props)) (get (JObj props)) l
                  HndE HGE Hl) as (lw & Hlw & _).
      { intros kd Hin. right. reflexivity. }
      exists (JObj lw). rewrite Hwrite, write_fields_schema by assumption.
      cbv beta in Hlw. now rewrite Hlw.
  - intros props ty l Hty Hr.
    rewrite Hread, read_fields_schema in Hr by assumption.
    apply bind_Ok in Hr as (l0 & Hl & Hr). injection Hr as ->.
    pose proof (proj1 (mapM_fields_Ok _ _ HndE l) Hl) as (Hkl & _).
    assert (Hin_type : get (JObj props) "type" = Ok ty).
    { cbn [get]. now rewrite Hty. }
    destruct (fields_round_trip (fun d => wrap (serializer d)) Rw
                (enumerate def) (get (JObj props))
                (get (JObj (set l "type" ty))) l
                HndE HGE Hl) as (lw & Hlw & Hkw & Hback).
    { intros kd Hin. destruct (string_dec (fst kd) "type") as [E | E].
      - right. rewrite E, get_set_same. symmetry. exact Hin_type.
      - left. rewrite get_set_other by exact E. apply get_own. rewrite Hkl.
        apply in_map, Hin. }
    exists lw. rewrite Hwrite, write_fields_schema by assumption.
    cbv beta in Hlw. rewrite Hlw. split; [reflexivity|]. intros HP.
    rewrite Hread, read_fields_schema by assumption.
    specialize (Hback (get (JObj (set lw "type" ty)))). cbv beta in Hback.
    rewrite Hback; [reflexivity|].
    intros kd Hin. destruct (string_dec (fst kd) "type") as [E | E].
    + right. rewrite E, get_set_same. symmetry. exact Hin_type.
    + left. split; [|split].
      * rewrite get_set_other by exact E. apply get_own. rewrite Hkl.
        apply in_map, Hin.
      * rewrite get_set_other by exact E. apply get_own. rewrite Hkw.
        apply in_map, Hin.
      * pose proof (HP kd (HinE kd Hin)) as HPk. cbn [field_of] in HPk.
        rewrite field_set_other in HPk by exact E. exact HPk.
Qed.

Lemma RoundTripsUnderType_weaken s (P Q : JsVal -> Prop) :
  (forall t, Q t -> P t) -> RoundTripsUnderType s P -> RoundTripsUnderType s Q.
Proof.
  intros HPQ H props ty l Hty Hr.
  destruct (H props ty l Hty Hr) as (lw & Hw & Hback).
  exists lw. auto.
Qed.

Lemma rereads_obj_fields def t :
  rereads (s_obj def) t ->
  forall kd, In kd def -> rereads (snd kd) (field_of t (fst kd)).
Proof.
  cbn [rereads]. induction def as [|[k d] def IH]; intros H kd Hin;
    [destruct Hin|].
  destruct H as [H1 H2]. destruct Hin as [<- | Hin]; [exact H1|].
  apply IH; assumption.
Qed.

Lemma rereads_partial_obj_fields def t :
  rereads (s_partial_obj def) t ->
  forall kd, In kd def ->
    eq_null (field_of t (fst kd)) = true \/ rereads (snd kd) (field_of t (fst kd)).
Proof.
  cbn [rereads]. induction def as [|[k d] def IH]; intros H kd Hin;
    [destruct Hin|].
  destruct H as [H1 H2]. destruct Hin as [<- | Hin]; [exact H1|].
  apply IH; assumption.
Qed.

Lemma well_formed_fields def :
  (distinct (map fst def) && negb (is_in (map fst def) "__proto__")
   && forallb (fun kd => well_formed (snd kd)) def)%bool = true ->
  NoDup (map fst def) /\ ~ In "__proto__" (map fst def) /\
  forall kd, In kd def -> well_formed (snd kd) = true.
Proof.
  intros H. apply andb_true_iff in H as [H H3].
  apply andb_true_iff in H as [H1 H2]. apply negb_true_iff in H2.
  split; [apply distinct_NoDup, H1|]. split; [apply is_in_false, H2|].
  intros kd Hin. rewrite forallb_forall in H3. apply H3, Hin.
Qed.

Lemma Good_obj (def : list (string * Schema)) :
  NoDup (map fst def) ->
  ~ In "__proto__" (map fst def) ->
  (forall kd, In kd def -> Good (serializer (snd kd)) (rereads (snd kd))) ->
  Good (serializer (s_obj def)) (rereads (s_obj def)) /\
  RoundTripsUnderType (serializer (s_obj def)) (rereads (s_obj def)).
Proof.
  intros Hnd Hproto HG.
  destruct (fields_Good (fun d => d) rereads def (serializer (s_obj def)))
    as (H1 & H2); try assumption; try (intros; reflexivity).
  split.
  - exact (Good_weaken _ _ _ (rereads_obj_fields def) H1).
  - exact (RoundTripsUnderType_weaken _ _ _ (rereads_obj_fields def) H2).
Qed.

Lemma Good_partial_obj (def : list (string * Schema)) :
  NoDup (map fst def) ->
  ~ In "__proto__" (map fst def) ->
  (forall kd, In kd def -> Good (serializer (snd kd)) (rereads (snd kd))) ->
  Good (serializer (s_partial_obj def)) (rereads (s_partial_obj def)) /\
  RoundTripsUnderType (serializer (s_partial_obj def))
                      (rereads (s_partial_obj def)).
Proof.
  intros Hnd Hproto HG.
  destruct (fields_Good optional
              (fun d t => eq_null t = true \/ rereads d t) def
              (serializer (s_partial_obj def)))
    as (H1 & H2); try assumption; try (intros; reflexivity).
  { intros kd Hin. apply Good_optional, HG, Hin. }
  split.
  - exact (Good_weaken _ _ _ (rereads_partial_obj_fields def) H1).
  - exact (RoundTripsUnderType_weaken _ _ _
             (rereads_partial_obj_fields def) H2).
Qed.

(** *** Tuples over schemas *)

Lemma rereads_tuple_positions def ts :
  rereads (s_tuple def) (JArr ts) ->
  Forall (fun pt : (JsVal -> Prop) * JsVal => fst pt (snd pt))
         (combine (map rereads def) ts).
Proof.
  cbn [rereads]. revert ts.
  induction def as [|d def IH]; intros ts H; [constructor|].
  destruct ts as [|t ts]; [constructor|].
  destruct H as [H1 H2]. cbn [map combine]. constructor; [exact H1|].
  apply IH, H2.
Qed.

Lemma Good_tuple_schema (def : list Schema) :
  Forall (fun d => Good (serializer d) (rereads d)) def ->
  Good (serializer (s_tuple def)) (rereads (s_tuple def)).
Proof.
  intros H. cbn [serializer].
  assert (H2 : Forall2 Good (map serializer def) (map rereads def)).
  { induction H as [|d def Hd _ IH]; constructor; assumption. }
  eapply Good_weaken; [|exact (Good_tuple _ _ H2)].
  intros t Ht. destruct t; try exact I.
  apply rereads_tuple_positions, Ht.
Qed.

(** *** Variants *)

Lemma digits_of_numeral i :
  NilZero.uint_of_string (digits_of i) = Some (N.to_uint (Z.to_N i)).
Proof.
  unfold digits_of. apply NilZero.usu.
  destruct (Z.to_N i); [discriminate|].
  simpl. intros H. apply (f_equal Pos.of_uint) in H.
  rewrite DecimalPos.Unsigned.of_to in H. discriminate.
Qed.

Lemma at_key_word {A} key (l : list A) :
  NilZero.uint_of_string key = None -> forall i, at_key key i l = None.
Proof.
  intros Hk. induction l as [|a l IH]; intros i; [reflexivity|].
  cbn [at_key]. destruct (String.eqb (digits_of i) key) eqn:E; [|apply IH].
  apply String.eqb_eq in E. subst key. rewrite digits_of_numeral in Hk.
  discriminate Hk.
Qed.

(** Only an ordinary object with an own property [type] has a string as
    its [type]. *)
Lemma get_type_string v tag :
  get v "type" = Ok (JStr tag) ->
  exists props, v = JObj props /\ lookup "type" props = Some (JStr tag).
Proof.
  destruct v as [| | b | n | s | elems | props]; cbn [get]; intros H;
    try discriminate H.
  - change (String.eqb "type" "length") with false in H. cbv iota in H.
    rewrite at_key_word in H by reflexivity. discriminate H.
  - change (String.eqb "type" "length") with false in H. cbv iota in H.
    rewrite at_key_word in H by reflexivity. discriminate H.
  - exists props. split; [reflexivity|].
    destruct (lookup "type" props) as [x|]; [|discriminate H].
    now injection H as ->.
Qed.

Lemma indexOf_found (tags : list string) ty :
  indexOf strict_eq_arg (map Tag tags) ty <> -1 ->
  exists pre t post,
    tags = (pre ++ t :: post)%list /\ ty = JStr t /\ ~ In t pre.
Proof.
  induction tags as [|t tags IH]; cbn [map indexOf]; intros H;
    [contradiction|].
  destruct (strict_eq_arg (Tag t) ty) eqn:E.
  - exists [], t, tags. cbn [strict_eq_arg] in E.
    destruct ty; try discriminate E. cbn [strict_eq_string] in E.
    apply String.eqb_eq in E. subst.
    split; [reflexivity|]. split; [reflexivity|]. intros [].
  - destruct (indexOf strict_eq_arg (map Tag tags) ty =? -1) eqn:E';
      [contradiction|].
    apply Z.eqb_neq in E'. destruct (IH E') as (pre & t' & post & -> & -> & Hn).
    exists (t :: pre), t', post.
    split; [reflexivity|]. split; [reflexivity|].
    intros [-> | Hin]; [|contradiction].
    cbn [strict_eq_arg strict_eq_string] in E. rewrite String.eqb_refl in E.
    discriminate E.
Qed.

Lemma variant_select (alts pre post : list (string * SafeSerializer)) tag d :
  alts = (pre ++ (tag, d) :: post)%list ->
  ~ In tag (map fst pre) ->
  (indexOf strict_eq_arg (filter_index Nat.even 0 (tagged alts)) (JStr tag)
     =? -1) = false /\
  item (filter_index Nat.odd 0 (tagged alts))
       (indexOf strict_eq_arg (filter_index Nat.even 0 (tagged alts)) (JStr tag))
    = Some (Ser d).
Proof.
  intros -> Hn.
  destruct (filter_index_tagged (pre ++ (tag, d) :: post) 0 eq_refl)
    as (-> & ->).
  rewrite (map_app fst), (map_app snd). cbn [map fst snd].
  rewrite indexOf_first by exact Hn.
  rewrite length_map, (map_app Ser). cbn [map].
  split; [apply Z.eqb_neq; lia|].
  replace (List.length pre) with (List.length (map Ser (map snd pre)))
    by now rewrite !length_map.
  apply item_middle.
Qed.

Lemma variant_read_at (alts pre post : list (string * SafeSerializer))
  tag d props :
  alts = (pre ++ (tag, d) :: post)%list ->
  ~ In tag (map fst pre) ->
  lookup "type" props = Some (JStr tag) ->
  read (variant (tagged alts)) (JObj props) =
    (r <- read d (JObj props) ;;
     Ok (JObj (set (spread r) "type" (JStr tag)))).
Proof.
  intros Ha Hn Hty. destruct (variant_select alts pre post tag d Ha Hn)
    as (Hi & Hs).
  unfold variant; cbn [read get]. rewrite Hty. cbn [bind].
  rewrite Hi, Hs. reflexivity.
Qed.

Lemma variant_write_at (alts pre post : list (string * SafeSerializer))
  tag d props :
  alts = (pre ++ (tag, d) :: post)%list ->
  ~ In tag (map fst pre) ->
  lookup "type" props = Some (JStr tag) ->
  write (variant (tagged alts)) (JObj props) =
    (w <- write d (JObj props) ;;
     Ok (JObj (set (spread w) "type" (JStr tag)))).
Proof.
  intros Ha Hn Hty. destruct (variant_select alts pre post tag d Ha Hn)
    as (Hi & Hs).
  unfold variant; cbn [write get]. rewrite Hty. cbn [bind].
  rewrite Hs. reflexivity.
Qed.

(** A successful [variant(...).read] selected the first alternative with
    the input's tag. *)
Lemma variant_read_inv (alts : list (string * SafeSerializer)) v t :
  read (variant (tagged alts)) v = Ok t ->
  exists props tag pre d post,
    v = JObj props /\ lookup "type" props = Some (JStr tag) /\
    alts = (pre ++ (tag, d) :: post)%list /\ ~ In tag (map fst pre).
Proof.
  intros H. unfold variant in H; cbn [read] in H.
  apply bind_Ok in H as (ty & Hty & H).
  destruct (filter_index_tagged alts 0 eq_refl) as (Ht & _).
  rewrite Ht in H.
  destruct (indexOf strict_eq_arg (map Tag (map fst alts)) ty =? -1) eqn:E;
    [discriminate H|].
  apply Z.eqb_neq, indexOf_found in E as (tpre & tag & tpost & Hsplit & -> & Hn).
  apply get_type_string in Hty as (props & -> & Hty).
  apply map_eq_app in Hsplit as (pre & rest & -> & Hpre & Hrest).
  apply map_eq_cons in Hrest as ([tag' d] & post & -> & Htag & Hpost).
  cbn [fst] in Htag. subst tag'.
  exists props, tag, pre, d, post. subst tpre. auto.
Qed.

Lemma rereads_variant (alts pre post : list (string * Schema)) tag d t :
  alts = (pre ++ (tag, d) :: post)%list ->
  ~ In tag (map fst pre) ->
  field_of t "type" = JStr tag ->
  rereads (s_variant alts) t -> rereads d t.
Proof.
  intros -> Hn Hty. cbn [rereads]. rewrite Hty. cbn [strict_eq_string].
  induction pre as [|[t' d'] pre IH]; cbn [app].
  - now rewrite String.eqb_refl.
  - destruct (String.eqb t' tag) eqn:E.
    + apply String.eqb_eq in E. subst t'. exfalso. apply Hn. left. reflexivity.
    + apply IH. intros Hin. apply Hn. right. exact Hin.
Qed.

Lemma obj_shape S :
  is_obj S = true ->
  (forall v t, read (serializer S) v = Ok t -> exists l, t = JObj l) /\
  (forall t w, write (serializer S) t = Ok w -> exists l, w = JObj l).
Proof.
  destruct S; try discriminate; intros _; split; intros x y H;
    cbn [serializer obj partial_obj read write] in H.
  - eapply obj_read_loop_shape, H.
  - eapply obj_write_loop_shape, H.
  - eapply obj_read_loop_shape, H.
  - eapply obj_write_loop_shape, H.
Qed.

Lemma schema_split (alts : list (string * Schema)) pre tag d post :
  map (on_snd serializer) alts = (pre ++ (tag, d) :: post)%list ->
  exists spre sd spost,
    alts = (spre ++ (tag, sd) :: spost)%list /\
    d = serializer sd /\ map fst spre = map fst pre.
Proof.
  intros H. apply map_eq_app in H as (spre & rest & -> & Hpre & Hrest).
  apply map_eq_cons in Hrest as ([tag' sd] & spost & -> & Hhd & Hpost).
  cbn [on_snd] in Hhd. injection Hhd as -> <-.
  exists spre, sd, spost. split; [reflexivity|]. split; [reflexivity|].
  rewrite <- Hpre. symmetry. apply keys_on_snd.
Qed.

Lemma Good_variant (alts : list (string * Schema)) :
  (forall kd, In kd alts ->
     is_obj (snd kd) = true /\
     Good (serializer (snd kd)) (rereads (snd kd)) /\
     RoundTripsUnderType (serializer (snd kd)) (rereads (snd kd))) ->
  Good (serializer (s_variant alts)) (rereads (s_variant alts)).
Proof.
  intros H. cbn [serializer].
  assert (Hinv : forall v t,
            read (variant (tagged (map (on_snd serializer) alts))) v = Ok t ->
            exists props tag pre post spre sd spost,
              v = JObj props /\ lookup "type" props = Some (JStr tag) /\
              map (on_snd serializer) alts =
                (pre ++ (tag, serializer sd) :: post)%list /\
              ~ In tag (map fst pre) /\
              alts = (spre ++ (tag, sd) :: spost)%list /\
              ~ In tag (map fst spre) /\
              In (tag, sd) alts).
  { intros v t Hr.
    destruct (variant_read_inv _ v t Hr)
      as (props & tag & pre & d & post & -> & Hty & Hsplit & Hn).
    destruct (schema_split alts pre tag d post Hsplit)
      as (spre & sd & spost & Ha & -> & Hk).
    exists props, tag, pre, post, spre, sd, spost.
    repeat (split; [assumption || reflexivity|]).
    split; [now rewrite Hk|].
    rewrite Ha. apply in_elt. }
  good_split.
  - intros v t Hr.
    destruct (Hinv v t Hr) as (props & tag & pre & post & spre & sd & spost &
                               -> & Hty & Hsplit & Hn & Ha & Hsn & Hin).
    destruct (H _ Hin) as (Hobj & _ & HU). cbn [snd] in Hobj, HU.
    rewrite (variant_read_at _ _ _ _ _ _ Hsplit Hn Hty) in Hr.
    apply bind_Ok in Hr as (r & Hrd & Hr). injection Hr as <-.
    destruct (proj1 (obj_shape sd Hobj) _ _ Hrd) as (l & ->). cbn [spread].
    destruct (HU props (JStr tag) l Hty Hrd) as (lw & Hw & Hback).
    exists (JObj (set lw "type" (JStr tag))).
    rewrite (variant_write_at _ _ _ _ _ _ Hsplit Hn (lookup_set_same l _ _)).
    rewrite Hw. cbn [bind spread]. split; [reflexivity|]. intros HP.
    rewrite (variant_read_at _ _ _ _ _ _ Hsplit Hn (lookup_set_same lw _ _)).
    rewrite Hback; [reflexivity|].
    apply (rereads_variant alts spre spost tag sd _ Ha Hsn); [|exact HP].
    cbn [field_of]. unfold field. now rewrite lookup_set_same.
  - intros v Hr.
    destruct (Hinv v _ Hr) as (props & tag & pre & post & spre & sd & spost &
                               -> & Hty & Hsplit & Hn & _).
    rewrite (variant_read_at _ _ _ _ _ _ Hsplit Hn Hty) in Hr.
    apply bind_Ok in Hr as (r & _ & Hr). discriminate Hr.
  - intros t v2 Hw _. unfold variant in Hw; cbn [write] in Hw.
    apply bind_Ok in Hw as (ty & _ & Hw). apply bind_Ok in Hw as (w & _ & Hw).
    injection Hw as <-. reflexivity.
  - intros v t Hr.
    destruct (Hinv v t Hr) as (props & tag & pre & post & spre & sd & spost &
                               -> & Hty & Hsplit & Hn & Ha & Hsn & Hin).
    destruct (H _ Hin) as (_ & (_ & _ & _ & Hd) & _). cbn [snd] in Hd.
    rewrite (variant_read_at _ _ _ _ _ _ Hsplit Hn Hty) in Hr.
    apply bind_Ok in Hr as (r & Hrd & _).
    destruct (Hd _ _ Hrd) as (w & Hw).
    rewrite (variant_write_at _ _ _ _ _ _ Hsplit Hn Hty), Hw.
    eexists. reflexivity.
Qed.

(** *** Reading [undefined] *)

Lemma reads_defined S :
  reads_undefined S = false -> UndefinedFromNull (serializer S).
Proof.
  induction S; cbn [reads_undefined serializer]; intros Hru v Hr;
    try discriminate Hru.
  - destruct v; discriminate Hr.
  - destruct v; discriminate Hr.
  - apply read_int_number in Hr as (n & Hn). discriminate Hn.
  - apply read_float_number in Hr as (n & Hn). discriminate Hn.
  - injection Hr as ->. reflexivity.
  - apply read_oneOf_string in Hr as (E & s & ->). discriminate E.
  - unfold optional in Hr; cbn [read] in Hr.
    destruct (eq_null v) eqn:E; [reflexivity|]. rewrite <- E. now apply IHS.
  - unfold nullable in Hr; cbn [read] in Hr.
    destruct (eq_null v) eqn:E; [reflexivity|]. rewrite <- E. now apply IHS.
  - apply read_array_shape in Hr as (? & ? & _ & E & _). discriminate E.
  - cbn [obj read] in Hr. apply obj_read_loop_shape in Hr as (l & E).
    discriminate E.
  - cbn [partial_obj read] in Hr. apply obj_read_loop_shape in Hr as (l & E).
    discriminate E.
  - apply read_tuple_shape in Hr as (? & ? & _ & E & _). discriminate E.
  - destruct (variant_read_inv _ v _ Hr)
      as (props & tag & pre & d & post & -> & Hty & Hsplit & Hn).
    rewrite (variant_read_at _ _ _ _ _ _ Hsplit Hn Hty) in Hr.
    apply bind_Ok in Hr as (r & _ & Hr). discriminate Hr.
Qed.

(** *** Induction over schemas *)

Lemma Schema_nested_ind (P : Schema -> Prop) :
  P s_str -> P s_bool -> P s_int -> P s_float -> P s_raw -> P s_nothing ->
  (forall def, P (s_oneOf def)) ->
  (forall s, P s -> P (s_optional s)) ->
  (forall s, P s -> P (s_nullable s)) ->
  (forall s, P s -> P (s_array s)) ->
  (forall def, Forall (fun kd => P (snd kd)) def -> P (s_obj def)) ->
  (forall def, Forall (fun kd => P (snd kd)) def -> P (s_partial_obj def)) ->
  (forall def, Forall P def -> P (s_tuple def)) ->
  (forall alts, Forall (fun kd => P (snd kd)) alts -> P (s_variant alts)) ->
  forall S, P S.
Proof.
  intros Hstr Hbool Hint Hfloat Hraw Hnothing HoneOf Hoptional Hnullable
         Harray Hobj Hpartial Htuple Hvariant.
  fix IH 1. intros [ | | | | | | def | s | s | s | def | def | def | alts ].
  - exact Hstr.
  - exact Hbool.
  - exact Hint.
  - exact Hfloat.
  - exact Hraw.
  - exact Hnothing.
  - apply HoneOf.
  - apply Hoptional, IH.
  - apply Hnullable, IH.
  - apply Harray, IH.
  - apply Hobj. induction def as [|[k d] def IHdef]; constructor;
      [apply IH | exact IHdef].
  - apply Hpartial. induction def as [|[k d] def IHdef]; constructor;
      [apply IH | exact IHdef].
  - apply Htuple. induction def as [|d def IHdef]; constructor;
      [apply IH | exact IHdef].
  - apply Hvariant. induction alts as [|[k d] alts IHalts]; constructor;
      [apply IH | exact IHalts].
Qed.

Lemma schema_round_trips S :
  well_formed S = true ->
  Good (serializer S) (rereads S) /\
  (is_obj S = true -> RoundTripsUnderType (serializer S) (rereads S)).
Proof.
  induction S as [ | | | | | | def | s IHs | s IHs | s IHs
                 | def IHdef | def IHdef | def IHdef | alts IHalts ]
    using Schema_nested_ind; cbn [well_formed]; intros Hwf.
  - split; [exact Good_str | discriminate].
  - split; [exact Good_bool | discriminate].
  - split; [exact Good_int | discriminate].
  - split; [exact Good_float | discriminate].
  - split; [exact Good_raw | discriminate].
  - split; [exact Good_nothing | discriminate].
  - split; [exact (Good_oneOf def) | discriminate].
  - split; [|discriminate]. apply Good_optional, IHs, Hwf.
  - split; [|discriminate]. apply andb_true_iff in Hwf as [Hru Hwf].
    apply negb_true_iff in Hru.
    apply Good_nullable; [apply IHs, Hwf | apply reads_defined, Hru].
  - split; [|discriminate]. apply (Good_array _ _ (proj1 (IHs Hwf))).
  - apply well_formed_fields in Hwf as (Hnd & Hproto & Hwf).
    rewrite Forall_forall in IHdef.
    destruct (Good_obj def Hnd Hproto) as (H1 & H2); [|auto].
    intros kd Hin. apply IHdef; auto.
  - apply well_formed_fields in Hwf as (Hnd & Hproto & Hwf).
    rewrite Forall_forall in IHdef.
    destruct (Good_partial_obj def Hnd Hproto) as (H1 & H2); [|auto].
    intros kd Hin. apply IHdef; auto.
  - split; [|discriminate]. apply Good_tuple_schema.
    rewrite forallb_forall in Hwf. rewrite Forall_forall in IHdef |- *.
    intros d Hin. apply IHdef; auto.
  - split; [|discriminate]. apply Good_variant.
    rewrite forallb_forall in Hwf. rewrite Forall_forall in IHalts.
    intros kd Hin. pose proof (Hwf kd Hin) as Hkd.
    apply andb_true_iff in Hkd as [Hobj Hwfk].
    destruct (IHalts kd Hin Hwfk) as (HG & HU). auto.
Qed.

Lemma number_free_rereads S : number_free S = true -> forall t, rereads S t.
Proof.
  induction S as [ | | | | | | def | s IHs | s IHs | s IHs
                 | def IHdef | def IHdef | def IHdef | alts IHalts ]
    using Schema_nested_ind; cbn [number_free]; intros Hnf t;
    try discriminate Hnf; try exact I.
  - right. apply IHs, Hnf.
  - right. apply IHs, Hnf.
  - cbn [rereads]. destruct t; try exact I.
    apply Forall_forall. intros x _. apply IHs, Hnf.
  - cbn [rereads]. induction IHdef as [|[k d] def Hd _ IH]; [exact I|].
    cbn [forallb snd] in Hnf. apply andb_true_iff in Hnf as [H1 H2].
    split; [apply Hd, H1 | apply IH, H2].
  - cbn [rereads]. induction IHdef as [|[k d] def Hd _ IH]; [exact I|].
    cbn [forallb snd] in Hnf. apply andb_true_iff in Hnf as [H1 H2].
    split; [right; apply Hd, H1 | apply IH, H2].
  - cbn [rereads]. destruct t as [| | | | | ts |]; try exact I. revert ts.
    induction IHdef as [|d def Hd _ IH]; intros ts; [exact I|].
    cbn [forallb] in Hnf. apply andb_true_iff in Hnf as [H1 H2].
    destruct ts as [|x ts]; [exact I|].
    split; [apply Hd, H1 | apply IH, H2].
  - cbn [rereads]. induction IHalts as [|[k d] alts Hd _ IH]; [exact I|].
    cbn [forallb snd] in Hnf. apply andb_true_iff in Hnf as [H1 H2].
    destruct (strict_eq_string k (field_of t "type"));
      [apply Hd, H1 | apply IH, H2].
Qed.


